(** * Collectiv: the retrieval, ranking and chunking core

    A shallow embedding of the pure functions of [lib/rag.ts],
    [lib/crossReference.ts] and [lib/schemas/jsonld.ts], and the properties
    the specification states about them.

    Conventions of the embedding.
    - A JavaScript string is the list of its UTF-16 code units ([list N]);
      [length] is the [length] property.
    - A JavaScript number that the code only uses as an integer is a [Z]
      (sizes and offsets) or a [nat] (counts of results); a number obtained
      by a division is the exact rational ([Q]).  Every comparison the code
      makes between such quotients has the same result on the rationals as
      on doubles, for the strings an engine can hold.
    - Regular expression literals are terms of the type [regex] below and
      are run by a backtracking matcher that follows the ECMAScript
      semantics of the constructs it has.
    - [toLowerCase] depends on the Unicode tables of the engine; it is a
      parameter (class [CaseMapping]) and the theorems hold for each
      choice.  Closed examples use the mapping of the ASCII letters. *)

From Stdlib Require Import ZArith QArith Qround List Ascii String.
From Stdlib Require Import DecimalString Sorted Permutation Lia Lqa.
From Stdlib Require DecimalNat.
From stdpp Require Import base list sorting relations gmap sets.

(** ** The JavaScript runtime the code relies on *)

Module Js.

Abbreviation jsstring := (list N).

(** A string literal, as its code units. *)
Definition str (s : string) : jsstring :=
  map N_of_ascii (list_ascii_of_string s).

(** [WhiteSpace] and [LineTerminator] of ECMAScript: what the class
    \s matches and what [trim] strips. *)
Definition isLineTerminator (c : N) : bool :=
  (c =? 10)%N || (c =? 13)%N || (c =? 8232)%N || (c =? 8233)%N.

Definition isWhiteSpace (c : N) : bool :=
  (c =? 9)%N || (c =? 11)%N || (c =? 12)%N || (c =? 32)%N || (c =? 160)%N
  || (c =? 5760)%N || ((8192 <=? c)%N && (c <=? 8202)%N) || (c =? 8239)%N
  || (c =? 8287)%N || (c =? 12288)%N || (c =? 65279)%N
  || isLineTerminator c.

(** The class \w: ASCII letters, digits and the underscore. *)
Definition isWordChar (c : N) : bool :=
  ((97 <=? c)%N && (c <=? 122)%N) || ((65 <=? c)%N && (c <=? 90)%N)
  || ((48 <=? c)%N && (c <=? 57)%N) || (c =? 95)%N.

Definition isDigit (c : N) : bool := (48 <=? c)%N && (c <=? 57)%N.

Definition jsstring_eqb (s t : jsstring) : bool := bool_decide (s = t).

(** A string is truthy when it is not empty. *)
Definition truthy (s : jsstring) : bool :=
  match s with [] => false | _ :: _ => true end.

Fixpoint startsWith (s t : jsstring) : bool :=
  match t, s with
  | [], _ => true
  | _ :: _, [] => false
  | y :: t', x :: s' => (x =? y)%N && startsWith s' t'
  end.

(** [s.includes(t)] *)
Fixpoint includes (s t : jsstring) : bool :=
  startsWith s t
  || match s with [] => false | _ :: s' => includes s' t end.

Fixpoint trimStart (s : jsstring) : jsstring :=
  match s with
  | c :: s' => if isWhiteSpace c then trimStart s' else s
  | [] => []
  end.

Definition trimEnd (s : jsstring) : jsstring := rev (trimStart (rev s)).

(** [s.trim()] *)
Definition trim (s : jsstring) : jsstring := trimEnd (trimStart s).

(** [s.slice(n)] for an integer [n >= 0]. *)
Definition sliceFrom (n : Z) (s : jsstring) : jsstring := drop (Z.to_nat n) s.

(** [s.length] as an integer. *)
Definition len (s : jsstring) : Z := Z.of_nat (length s).

(** The decimal numeral of a non-negative integer, as template literals
    print it. *)
Definition decimal (n : nat) : jsstring :=
  str (NilZero.string_of_uint (Nat.to_uint n)).

(** [Math.ceil (n / d)] of two integers, [d > 0]. *)
Definition ceilDiv (n d : Z) : Z := Qceiling (inject_Z n / inject_Z d).

(** *** Regular expressions

    The constructs the code uses: characters and classes, the assertions
    ^ $ \b \B and a one-character look-behind, sequence, alternation and
    the quantifiers * + ? (greedy or lazy).  Groups capture nothing here:
    where the code reads a capture the model computes it from the match. *)

Inductive assertion :=
| AtStart
| AtEnd
| WordBoundary
| NotWordBoundary
| LookBehind (p : N → bool).

Inductive regex :=
| Empty
| Char (p : N → bool)
| Assert (a : assertion)
| Seq (r1 r2 : regex)
| Alt (r1 r2 : regex)
| Star (greedy : bool) (r : regex).

(** A position in the input: the code units before it (nearest first)
    and those after it. *)
Record cursor := Cursor { before : jsstring; after : jsstring }.

Definition wordBefore (c : cursor) : bool :=
  match before c with x :: _ => isWordChar x | [] => false end.

Definition wordAfter (c : cursor) : bool :=
  match after c with x :: _ => isWordChar x | [] => false end.

Definition holds (a : assertion) (c : cursor) : bool :=
  match a with
  | AtStart => negb (truthy (before c))
  | AtEnd => negb (truthy (after c))
  | WordBoundary => xorb (wordBefore c) (wordAfter c)
  | NotWordBoundary => negb (xorb (wordBefore c) (wordAfter c))
  | LookBehind p => match before c with x :: _ => p x | [] => false end
  end.

Definition orElse {A} (a b : option A) : option A :=
  match a with Some _ => a | None => b end.

(** The backtracking matcher, in continuation-passing style as in the
    ECMAScript specification: [run r c k] matches [r] at [c] and hands the
    position reached to [k]; the first success wins.  An iteration of a
    star that consumes nothing is rejected, so a star makes at most one
    iteration for each remaining code unit. *)
Fixpoint run (r : regex) (c : cursor) (k : cursor → option cursor)
  : option cursor :=
  match r with
  | Empty => k c
  | Char p =>
      match after c with
      | x :: rest => if p x then k (Cursor (x :: before c) rest) else None
      | [] => None
      end
  | Assert a => if holds a c then k c else None
  | Seq r1 r2 => run r1 c (fun c' => run r2 c' k)
  | Alt r1 r2 => orElse (run r1 c k) (run r2 c k)
  | Star greedy r1 =>
      (fix iterate (n : nat) (c : cursor) : option cursor :=
         match n with
         | O => k c
         | S n' =>
             let again :=
               run r1 c (fun c' =>
                 if (length (after c') <? length (after c))%nat
                 then iterate n' c' else None) in
             if greedy then orElse again (k c) else orElse (k c) again
         end) (S (length (after c))) c
  end.

Definition plus (r : regex) : regex := Seq r (Star true r).

Definition literal (s : jsstring) : regex :=
  foldr (fun x r => Seq (Char (N.eqb x)) r) Empty s.

(** A match of [r] that starts exactly at the cursor: the number of code
    units it consumes. *)
Definition matchAt (r : regex) (bef aft : jsstring) : option nat :=
  match run r (Cursor bef aft) Some with
  | Some e => Some (length aft - length (after e))%nat
  | None => None
  end.

(** The successive matches of a global regular expression over a string,
    as [RegExpBuiltinExec] finds them from [lastIndex]: the code units
    outside the matches and the matches, in order.  After an empty match
    the search resumes one code unit further. *)
Inductive piece := Gap (c : N) | Hit (m : jsstring).

Fixpoint scan (r : regex) (bef aft : jsstring) (skip : nat) : list piece :=
  match skip, aft with
  | S k, c :: aft' => scan r (c :: bef) aft' k
  | S k, [] => []
  | O, [] =>
      match matchAt r bef [] with Some _ => [Hit []] | None => [] end
  | O, c :: aft' =>
      match matchAt r bef aft with
      | Some O => Hit [] :: Gap c :: scan r (c :: bef) aft' 0
      | Some (S n) => Hit (take (S n) aft) :: scan r (c :: bef) aft' n
      | None => Gap c :: scan r (c :: bef) aft' 0
      end
  end.

(** [s.match(r)] for a global [r], with [null] read as the empty array
    (the code writes [s.match(r) || []]). *)
Definition matchAll (r : regex) (s : jsstring) : list jsstring :=
  omap (fun p => match p with Hit m => Some m | Gap _ => None end)
       (scan r [] s 0).

(** [s.replace(r, by)] for a global [r] and a replacement without $. *)
Definition replaceAll (r : regex) (by_ : jsstring) (s : jsstring) : jsstring :=
  concat (map (fun p => match p with Hit _ => by_ | Gap c => [c] end)
              (scan r [] s 0)).

(** [s.split(r)]: the loop of [RegExp.prototype[Symbol.split]].  [cur] is
    the segment since the last separator (nearest code unit first); an
    empty match at the start of a segment does not split. *)
Fixpoint splitFrom (r : regex) (bef aft : jsstring) (skip : nat)
  (cur : jsstring) : list jsstring :=
  match aft with
  | [] => [rev cur]
  | c :: aft' =>
      match skip with
      | S k => splitFrom r (c :: bef) aft' k cur
      | O =>
          match matchAt r bef aft with
          | Some O =>
              if truthy cur
              then rev cur :: splitFrom r (c :: bef) aft' 0 [c]
              else splitFrom r (c :: bef) aft' 0 (c :: cur)
          | Some (S n) => rev cur :: splitFrom r (c :: bef) aft' n []
          | None => splitFrom r (c :: bef) aft' 0 (c :: cur)
          end
      end
  end.

Definition split (r : regex) (s : jsstring) : list jsstring :=
  match s with
  | [] => match matchAt r [] [] with Some _ => [] | None => [[]] end
  | _ :: _ => splitFrom r [] s 0 []
  end.

(** *** Completions

    A call returns a value or throws.  The third case marks an input on
    which the model says nothing: a regular expression built at run time
    from a construct the matcher above does not have. *)

Inductive jsError := SyntaxError.

Inductive outcome (A : Type) :=
| Returns (a : A)
| Throws (e : jsError)
| Unmodelled.
Arguments Returns {A} a.
Arguments Throws {A} e.
Arguments Unmodelled {A}.

#[global] Instance outcome_ret : MRet outcome := fun A a => Returns a.

#[global] Instance outcome_bind : MBind outcome := fun A B f m =>
  match m with
  | Returns a => f a
  | Throws e => Throws e
  | Unmodelled => Unmodelled
  end.

(** *** [new RegExp(pattern)]

    The pattern is read left to right with the stack of the groups that
    are open.  A frame holds the alternatives of a disjunction that are
    complete and the terms of the alternative being read, latest first. *)

Record frame := Frame { alts : list regex; terms : list regex }.

Definition sequence (ts : list regex) : regex :=
  fold_left (fun acc t => Seq t acc) ts Empty.

Definition disjunction (f : frame) : regex :=
  fold_left (fun acc a => Alt a acc) (alts f) (sequence (terms f)).

Definition addTerm (t : regex) (f : frame) : frame :=
  Frame (alts f) (t :: terms f).

(** What follows a backslash outside a character class. *)
Inductive escape :=
| EscAssert (a : assertion)
| EscChar (p : N → bool)
| EscOther.

Definition atomEscape (c : N) : escape :=
  if (c =? 98)%N then EscAssert WordBoundary                    (* \b *)
  else if (c =? 66)%N then EscAssert NotWordBoundary            (* \B *)
  else if (c =? 100)%N then EscChar isDigit                     (* \d *)
  else if (c =? 68)%N then EscChar (fun x => negb (isDigit x))
  else if (c =? 119)%N then EscChar isWordChar                  (* \w *)
  else if (c =? 87)%N then EscChar (fun x => negb (isWordChar x))
  else if (c =? 115)%N then EscChar isWhiteSpace                (* \s *)
  else if (c =? 83)%N then EscChar (fun x => negb (isWhiteSpace x))
  else if (c =? 116)%N then EscChar (N.eqb 9)                   (* \t *)
  else if (c =? 110)%N then EscChar (N.eqb 10)                  (* \n *)
  else if (c =? 118)%N then EscChar (N.eqb 11)                  (* \v *)
  else if (c =? 102)%N then EscChar (N.eqb 12)                  (* \f *)
  else if (c =? 114)%N then EscChar (N.eqb 13)                  (* \r *)
  else if isDigit c || (c =? 99)%N || (c =? 107)%N || (c =? 120)%N
          || (c =? 117)%N
       then EscOther  (* back references, \c, \k, \x and \u escapes *)
  else EscChar (N.eqb c).                           (* identity escape *)

Definition quantify (q : N) (greedy : bool) (t : regex) : regex :=
  if (q =? 42)%N then Star greedy t                             (* * *)
  else if (q =? 43)%N then Seq t (Star greedy t)                (* + *)
  else if greedy then Alt t Empty else Alt Empty t.             (* ? *)

(** [parse p top stack q]: [top] is the innermost open disjunction,
    [stack] the enclosing ones, [q] tells whether the last term read may
    take a quantifier (an atom, not an assertion or a quantified term).
    A pattern is a [SyntaxError] when a group is not closed or not
    opened, when a quantifier has nothing to repeat and when it ends in
    a backslash.  Character classes, braces and the groups that start
    with (? other than (?: are outside the matcher. *)
Fixpoint parse (p : jsstring) (top : frame) (stack : list frame) (q : bool)
  : outcome regex :=
  match p with
  | [] =>
      match stack with
      | [] => Returns (disjunction top)
      | _ :: _ => Throws SyntaxError
      end
  | c :: rest =>
      if (c =? 92)%N then                                   (* backslash *)
        match rest with
        | [] => Throws SyntaxError
        | e :: rest' =>
            match atomEscape e with
            | EscAssert a => parse rest' (addTerm (Assert a) top) stack false
            | EscChar cls => parse rest' (addTerm (Char cls) top) stack true
            | EscOther => Unmodelled
            end
        end
      else if (c =? 40)%N then                                      (* ( *)
        match rest with
        | x :: rest' =>
            if (x =? 63)%N then
              match rest' with
              | y :: rest'' =>
                  if (y =? 58)%N
                  then parse rest'' (Frame [] []) (top :: stack) false
                  else Unmodelled
              | [] => Throws SyntaxError
              end
            else parse rest (Frame [] []) (top :: stack) false
        | [] => Throws SyntaxError
        end
      else if (c =? 41)%N then                                      (* ) *)
        match stack with
        | outer :: stack' =>
            parse rest (addTerm (disjunction top) outer) stack' true
        | [] => Throws SyntaxError
        end
      else if (c =? 124)%N then                                     (* | *)
        parse rest (Frame (sequence (terms top) :: alts top) []) stack false
      else if (c =? 42)%N || (c =? 43)%N || (c =? 63)%N then    (* * + ? *)
        match q, terms top with
        | true, t :: ts =>
            match rest with
            | x :: rest' =>
                if (x =? 63)%N
                then parse rest' (Frame (alts top) (quantify c false t :: ts))
                           stack false
                else parse rest (Frame (alts top) (quantify c true t :: ts))
                           stack false
            | [] => parse rest (Frame (alts top) (quantify c true t :: ts))
                          stack false
            end
        | _, _ => Throws SyntaxError
        end
      else if (c =? 91)%N || (c =? 123)%N then Unmodelled       (* [ { *)
      else if (c =? 94)%N then
        parse rest (addTerm (Assert AtStart) top) stack false
      else if (c =? 36)%N then
        parse rest (addTerm (Assert AtEnd) top) stack false
      else if (c =? 46)%N then
        parse rest (addTerm (Char (fun x => negb (isLineTerminator x))) top)
              stack true
      else parse rest (addTerm (Char (N.eqb c)) top) stack true
  end.

(** [new RegExp(pattern, 'g')] *)
Definition RegExp (pattern : jsstring) : outcome regex :=
  parse pattern (Frame [] []) [] false.

(** *** [Array.prototype.sort]

    The sort is stable, and for a consistent comparator its result is
    determined: the insertion sort below computes it.  ([compare a b]
    positive puts [b] first; a comparator that answers [NaN] answers 0.) *)

Fixpoint sortInsert {A} (compare : A → A → Q) (x : A) (l : list A) : list A :=
  match l with
  | [] => [x]
  | y :: l' =>
      if Qle_bool (compare x y) 0 then x :: l
      else y :: sortInsert compare x l'
  end.

Definition sort {A} (compare : A → A → Q) (l : list A) : list A :=
  foldr (sortInsert compare) [] l.

(** *** A plain object used as a table of counts

    [frequency[word] = (frequency[word] || 0) + 1] on an object literal.
    The own properties are kept in creation order.  A word that names a
    member of [Object.prototype] reads that member (a function or an
    object, which is truthy), and adding 1 to it makes a string that is
    not a numeral ([Garbled]); so does adding 1 to such a string.  An
    assignment to [__proto__] of a value that is not an object creates no
    property. *)

Inductive count := Count (n : nat) | Garbled.

Abbreviation table := (list (jsstring * count)).

Definition objectPrototypeNames : list jsstring :=
  map str ["constructor"; "__defineGetter__"; "__defineSetter__";
           "hasOwnProperty"; "__lookupGetter__"; "__lookupSetter__";
           "isPrototypeOf"; "propertyIsEnumerable"; "toString"; "valueOf";
           "__proto__"; "toLocaleString"]%string.

Fixpoint getOwn (o : table) (key : jsstring) : option count :=
  match o with
  | [] => None
  | (k, v) :: o' => if jsstring_eqb k key then Some v else getOwn o' key
  end.

Fixpoint setOwn (o : table) (key : jsstring) (v : count) : table :=
  match o with
  | [] => [(key, v)]
  | (k, w) :: o' =>
      if jsstring_eqb k key then (k, v) :: o' else (k, w) :: setOwn o' key v
  end.

(** [(o[key] || 0) + 1] *)
Definition increment (o : table) (key : jsstring) : count :=
  match getOwn o key with
  | Some (Count n) => Count (n + 1)
  | Some Garbled => Garbled
  | None =>
      if bool_decide (key ∈ objectPrototypeNames) then Garbled else Count 1
  end.

(** [o[key] = (o[key] || 0) + 1] *)
Definition tally (o : table) (key : jsstring) : table :=
  if jsstring_eqb key (str "__proto__") then o
  else setOwn o key (increment o key).

(** The value of a canonical numeral. *)
Definition numeral (s : jsstring) : Z :=
  fold_left (fun acc c => (10 * acc + (Z.of_N c - 48))%Z) s 0%Z.

(** An array index: the canonical numeral of an integer below 2^32 - 1.
    Such keys come first in the order of the own properties. *)
Definition isArrayIndex (s : jsstring) : bool :=
  truthy s && forallb isDigit s
  && (jsstring_eqb s (str "0") || negb (startsWith s (str "0")))
  && (length s <=? 10)%nat && (numeral s <? 4294967295)%Z.

(** [Object.entries(o)]: array indices in ascending order, then the
    other keys in creation order. *)
Definition entries (o : table) : list (jsstring * count) :=
  sort (fun a b => inject_Z (numeral (fst a) - numeral (fst b)))
       (List.filter (fun e => isArrayIndex (fst e)) o)
  ++ List.filter (fun e => negb (isArrayIndex (fst e))) o.

(** *** [Array.prototype.join] *)

Fixpoint join (separator : jsstring) (items : list jsstring) : jsstring :=
  match items with
  | [] => []
  | [item] => item
  | item :: rest => item ++ separator ++ join separator rest
  end.

(** *** [String.prototype.toLowerCase] *)

Class CaseMapping := toLowerCase : jsstring → jsstring.

(** The mapping of the ASCII letters; it is [toLowerCase] on the strings
    whose code units are all below 128. *)
Definition asciiToLowerCase (s : jsstring) : jsstring :=
  map (fun c => if (65 <=? c)%N && (c <=? 90)%N then (c + 32)%N else c) s.

End Js.

Import Js.

(** ** lib/rag.ts *)

Module Rag.

Record TokenRange := { min : Z; max : Z }.

Record TokenEstimate := { approximate : Z; range : TokenRange }.

Record ChunkMetadata := {
  title : jsstring;
  section : option jsstring;
  tokens : Z;
  startChar : Z;
  endChar : Z
}.

Record ChunkedContent := {
  id : jsstring;
  articleId : jsstring;
  chunkIndex : nat;
  content : jsstring;
  metadata : ChunkMetadata;
  embedding : option (list Q)
}.

Definition estimateTokens (text : jsstring) : TokenEstimate :=
  let charCount := len text in
  let approximateTokens := ceilDiv charCount 4 in
  let minTokens := ceilDiv charCount 5 in
  let maxTokens := ceilDiv charCount 3 in
  {| approximate := approximateTokens;
     range := {| min := minTokens; max := maxTokens |} |}.

Definition isSentenceEnd (c : N) : bool :=
  (c =? 46)%N || (c =? 33)%N || (c =? 63)%N.                     (* . ! ? *)

(** /(?<=[.!?])\s+/ *)
Definition sentenceBreak : regex :=
  Seq (Assert (LookBehind isSentenceEnd)) (plus (Char isWhiteSpace)).

(** /\s+/ *)
Definition whitespace : regex := plus (Char isWhiteSpace).

(** The variables of the loop of [chunkContent]. *)
Record chunking := {
  chunks : list ChunkedContent;
  currentChunk : jsstring;
  startCharNow : Z;
  chunkIndexNow : nat
}.

(** The object pushed on [chunks], from the loop variables. *)
Definition chunkOf (articleId title : jsstring) (st : chunking)
  : ChunkedContent :=
  {| id := articleId ++ str "-chunk-" ++ decimal (chunkIndexNow st);
     articleId := articleId;
     chunkIndex := chunkIndexNow st;
     content := currentChunk st;
     metadata :=
       {| title := title;
          section := None;
          tokens := approximate (estimateTokens (currentChunk st));
          startChar := startCharNow st;
          endChar := (startCharNow st + len (currentChunk st))%Z |};
     embedding := None |}.

(** One turn of the loop over the sentences. *)
Definition chunkStep (chunkSize overlapSize : Z) (articleId title : jsstring)
  (st : chunking) (sentence : jsstring) : chunking :=
  let potentialChunk :=
    currentChunk st ++ (if truthy (currentChunk st) then str " " else [])
                    ++ sentence in
  if (len potentialChunk >? chunkSize)%Z && truthy (currentChunk st) then
    let overlapStart := Z.max 0 (len (currentChunk st) - overlapSize) in
    {| chunks := chunks st ++ [chunkOf articleId title st];
       currentChunk :=
         sliceFrom overlapStart (currentChunk st) ++ str " " ++ sentence;
       startCharNow := (startCharNow st + overlapStart)%Z;
       chunkIndexNow := S (chunkIndexNow st) |}
  else
    {| chunks := chunks st;
       currentChunk := potentialChunk;
       startCharNow := startCharNow st;
       chunkIndexNow := chunkIndexNow st |}.

Definition chunkStart : chunking :=
  {| chunks := []; currentChunk := []; startCharNow := 0; chunkIndexNow := 0 |}.

(** The loop of [chunkContent] over a list of sentences, and the push of
    the remaining content. *)
Definition chunkSentences (sentences : list jsstring)
  (chunkSize overlapSize : Z) (articleId title : jsstring)
  : list ChunkedContent :=
  let st :=
    fold_left (chunkStep chunkSize overlapSize articleId title)
              sentences chunkStart in
  if truthy (trim (currentChunk st))
  then chunks st ++ [chunkOf articleId title st]
  else chunks st.

Definition chunkContent (content : jsstring) (chunkSize overlapSize : Z)
  (articleId title : jsstring) : list ChunkedContent :=
  chunkSentences (split sentenceBreak content)
                 chunkSize overlapSize articleId title.

(** The line feed, and the break between two blocks of text. *)
Definition lineFeed : jsstring := [10%N].
Definition blankLine : jsstring := [10%N; 10%N].

(** The text added to the context for one chunk. *)
Definition contextEntry (chunk : ChunkedContent) : jsstring :=
  str "[" ++ title (metadata chunk) ++ str "]" ++ lineFeed
  ++ content chunk ++ blankLine.

(** The loop of [formatContextForLLM]; it stops at the first chunk that
    does not fit. *)
Fixpoint formatContextFrom (chunks : list ChunkedContent) (maxTokens : Z)
  (result : jsstring) (tokenCount : Z) : jsstring :=
  match chunks with
  | [] => result
  | chunk :: rest =>
      let chunkTokens := tokens (metadata chunk) in
      if (tokenCount + chunkTokens >? maxTokens)%Z then result
      else formatContextFrom rest maxTokens
             (result ++ contextEntry chunk) (tokenCount + chunkTokens)%Z
  end.

Definition formatContextForLLM (chunks : list ChunkedContent) (maxTokens : Z)
  : jsstring :=
  formatContextFrom chunks maxTokens [] 0.

(** The options of [optimizeForRetrieval]; a field that is absent takes
    its default. *)
Record RetrievalOptions := {
  minChunkSize : option Z;
  maxChunkSize : option Z;
  overlap : option bool;
  contextWindow : option Z
}.

(** /\n\n+/ *)
Definition paragraphBreak : regex :=
  Seq (Char (N.eqb 10)) (plus (Char (N.eqb 10))).

(** The first loop of [optimizeForRetrieval]: paragraphs are gathered
    while they fit in [maxChunkSize]. *)
Definition gatherStep (maxChunkSize : Z) (st : list jsstring * jsstring)
  (paragraph : jsstring) : list jsstring * jsstring :=
  let (chunks, currentChunk) := st in
  if (len (currentChunk ++ paragraph) >? maxChunkSize)%Z then
    (if truthy currentChunk then chunks ++ [currentChunk] else chunks,
     paragraph)
  else
    (chunks,
     currentChunk ++ (if truthy currentChunk then blankLine else [])
                  ++ paragraph).

Definition gather (maxChunkSize : Z) (paragraphs : list jsstring)
  : list jsstring :=
  let (chunks, currentChunk) :=
    fold_left (gatherStep maxChunkSize) paragraphs ([], []) in
  if truthy currentChunk then chunks ++ [currentChunk] else chunks.

(** The second loop: a chunk shorter than [minChunkSize] is appended to
    the chunk before it. *)
Definition mergeStep (minChunkSize : Z) (optimizedChunks : list jsstring)
  (chunk : jsstring) : list jsstring :=
  match rev optimizedChunks with
  | lastChunk :: before =>
      if (len chunk <? minChunkSize)%Z
      then rev before ++ [lastChunk ++ blankLine ++ chunk]
      else optimizedChunks ++ [chunk]
  | [] => optimizedChunks ++ [chunk]
  end.

Definition optimizeForRetrieval (content : jsstring)
  (options : RetrievalOptions) : list jsstring :=
  let minChunkSize := default 512%Z (minChunkSize options) in
  let maxChunkSize := default 2048%Z (maxChunkSize options) in
  let chunks := gather maxChunkSize (split paragraphBreak content) in
  fold_left (mergeStep minChunkSize) chunks [].

(** The loop of [extractKeySummary]; it stops at the first sentence that
    does not fit. *)
Fixpoint keySummaryFrom (sentences : list jsstring) (maxLength : Z)
  (summary : jsstring) : jsstring :=
  match sentences with
  | [] => summary
  | sentence :: rest =>
      if (len summary + len sentence >? maxLength)%Z then summary
      else keySummaryFrom rest maxLength
             (summary ++ (if truthy summary then str " " else [])
                      ++ sentence)
  end.

Definition extractKeySummary (content : jsstring) (maxLength : Z) : jsstring :=
  keySummaryFrom (split sentenceBreak content) maxLength [].

Section WithCaseMapping.
Context `{CaseMapping}.

(** The body of the loop over the terms of the query: the occurrences of
    the term, as a word, in the content. *)
Definition countTerm (content contentLower : jsstring) (matchCount : nat)
  (term : jsstring) : outcome nat :=
  if includes contentLower term then
    regex ← RegExp (str "\b" ++ term ++ str "\b");
    mret (matchCount + length (matchAll regex content))%nat
  else mret matchCount.

Fixpoint countTerms (content contentLower : jsstring) (matchCount : nat)
  (queryTerms : list jsstring) : outcome nat :=
  match queryTerms with
  | [] => mret matchCount
  | term :: rest =>
      matchCount' ← countTerm content contentLower matchCount term;
      countTerms content contentLower matchCount' rest
  end.

Definition calculateSimilarityScore (query content : jsstring) : outcome Q :=
  let queryTerms := split whitespace (toLowerCase query) in
  let contentLower := toLowerCase content in
  matchCount ← countTerms content contentLower 0 queryTerms;
  mret (inject_Z (Z.of_nat matchCount)
        / inject_Z (Z.max (Z.of_nat (length queryTerms)) 1))%Q.

(** A chunk with its transient [relevanceScore]. *)
Record RankedChunk := { chunk : ChunkedContent; relevanceScore : Q }.

Definition rankChunksForQuery (chunks : list ChunkedContent)
  (query : jsstring) (topK : nat) : outcome (list ChunkedContent) :=
  scored ← mapM (fun chunk =>
                   score ← calculateSimilarityScore query (content chunk);
                   mret {| chunk := chunk; relevanceScore := score |})
                chunks;
  mret (map chunk
         (take topK
            (sort (fun a b => relevanceScore b - relevanceScore a)%Q scored))).

End WithCaseMapping.

End Rag.

(** ** lib/crossReference.ts *)

Module CrossReference.

Record Article := {
  id : jsstring;
  title : jsstring;
  slug : jsstring;
  description : option jsstring;
  content : jsstring
}.

Record RelatedArticle := {
  related_id : jsstring;
  related_title : jsstring;
  related_slug : jsstring;
  related_description : option jsstring;
  relevanceScore : Q
}.

Inductive connectionType := references | referencedBy | related.

Record Connection := { nodeId : jsstring; type : connectionType }.

Record KnowledgeGraphNode := {
  node_id : jsstring;
  node_title : jsstring;
  node_slug : jsstring;
  connections : list Connection
}.

(** /[^\w\s]/g *)
Definition punctuation : regex :=
  Char (fun c => negb (isWordChar c || isWhiteSpace c)).

(** /\[\[([^\]]+)\]\]/g ; the group is the match without its brackets. *)
Definition wikiLink : regex :=
  Seq (literal (str "[["))
      (Seq (plus (Char (fun c => negb (c =? 93)%N))) (literal (str "]]"))).

Definition wikiLinkTarget (hit : jsstring) : jsstring :=
  take (length hit - 4) (drop 2 hit).

(** The comparator [([, a], [, b]) => b - a] on the entries of the table
    of counts; a difference with a value that is no number is [NaN]. *)
Definition byCountDescending (x y : jsstring * count) : Q :=
  match snd x, snd y with
  | Count a, Count b => inject_Z (Z.of_nat b - Z.of_nat a)
  | _, _ => 0
  end.

Section WithCaseMapping.
Context `{CaseMapping}.

Definition extractKeywords (content : jsstring) (maxKeywords : nat)
  : list jsstring :=
  let words :=
    List.filter (fun word => (4 <? length word)%nat)
      (split Rag.whitespace (replaceAll punctuation [] (toLowerCase content))) in
  let frequency := fold_left tally words [] in
  map fst (take maxKeywords (sort byCountDescending (entries frequency))).

Definition calculateSimilarity (content1 content2 : jsstring) : Q :=
  let keywords1 : gset jsstring := list_to_set (extractKeywords content1 10) in
  let keywords2 : gset jsstring := list_to_set (extractKeywords content2 10) in
  let intersection :=
    length (List.filter (fun keyword => bool_decide (keyword ∈ keywords2))
                        (elements keywords1)) in
  let union :=
    (Z.of_nat (size keywords1) + Z.of_nat (size keywords2)
     - Z.of_nat intersection)%Z in
  if (union =? 0)%Z then 0
  else (inject_Z (Z.of_nat intersection) / inject_Z union)%Q.

Definition findRelatedArticles (currentArticle : Article)
  (allArticles : list Article) (limit : nat) : list RelatedArticle :=
  let scored :=
    map (fun article =>
           (article, calculateSimilarity (content currentArticle)
                                         (content article)))
        (List.filter (fun article =>
                        negb (jsstring_eqb (id article) (id currentArticle)))
                     allArticles) in
  let above :=
    List.filter (fun a => negb (Qle_bool (snd a) (1 # 10))) scored in
  map (fun a =>
         {| related_id := id (fst a);
            related_title := title (fst a);
            related_slug := slug (fst a);
            related_description := description (fst a);
            relevanceScore := snd a |})
      (take limit (sort (fun a b => snd b - snd a)%Q above)).

Definition extractInternalReferences (content : jsstring) : list jsstring :=
  fold_left
    (fun references hit =>
       let reference := trim (toLowerCase (wikiLinkTarget hit)) in
       if bool_decide (reference ∈ references) then references
       else references ++ [reference])
    (matchAll wikiLink content) [].

(** [node.connections.push(...)] for a reference, when it resolves to an
    article that the node is not connected to yet. *)
Definition addReference (articles : list Article)
  (connections : list Connection) (ref : jsstring) : list Connection :=
  match List.find (fun a => jsstring_eqb (toLowerCase (title a)) ref)
                  articles with
  | Some referencedArticle =>
      if existsb (fun c => jsstring_eqb (nodeId c) (id referencedArticle))
                 connections
      then connections
      else connections ++ [{| nodeId := id referencedArticle;
                              type := references |}]
  | None => connections
  end.

(** The second loop of [buildKnowledgeGraph], for one article.  The node
    is the object stored under the id of the article; its connections
    are extended in place. *)
Definition connect (articles : list Article) (maxConnectionsPerArticle : nat)
  (graph : gmap jsstring KnowledgeGraphNode) (article : Article)
  : gmap jsstring KnowledgeGraphNode :=
  match graph !! id article with
  | Some node =>
      let references := extractInternalReferences (content article) in
      let relatedArticles :=
        findRelatedArticles article articles maxConnectionsPerArticle in
      let withRelated :=
        connections node
        ++ map (fun r => {| nodeId := related_id r; type := related |})
               relatedArticles in
      <[id article :=
          {| node_id := node_id node;
             node_title := node_title node;
             node_slug := node_slug node;
             connections :=
               fold_left (addReference articles) references withRelated |}]>
        graph
  | None => graph
  end.

Definition buildKnowledgeGraph (articles : list Article)
  (maxConnectionsPerArticle : nat) : gmap jsstring KnowledgeGraphNode :=
  let nodes :=
    fold_left
      (fun graph article =>
         <[id article :=
             {| node_id := id article;
                node_title := title article;
                node_slug := slug article;
                connections := [] |}]> graph)
      articles ∅ in
  fold_left (connect articles maxConnectionsPerArticle) articles nodes.

Record BackLink := {
  backlink_id : jsstring;
  backlink_title : jsstring;
  backlink_slug : jsstring
}.

Definition findBacklinks (currentArticleTitle : jsstring)
  (allArticles : list Article) : list BackLink :=
  let currentTitle := toLowerCase currentArticleTitle in
  fold_left
    (fun backlinks article =>
       let references := extractInternalReferences (content article) in
       if existsb (fun ref => jsstring_eqb ref currentTitle) references
       then backlinks ++ [{| backlink_id := id article;
                             backlink_title := title article;
                             backlink_slug := slug article |}]
       else backlinks)
    allArticles [].

End WithCaseMapping.

(** The variables of the traversal of [getRecommendations].
    [recommendations] is a [Map]: its entries in insertion order. *)
Record traversal := {
  recommendations : list (jsstring * KnowledgeGraphNode);
  queue : list jsstring;
  visited : gset jsstring
}.

(** The body of [node.connections.forEach]. *)
Definition visit (graph : gmap jsstring KnowledgeGraphNode) (limit : nat)
  (st : traversal) (connection : Connection) : traversal :=
  if bool_decide (nodeId connection ∈ visited st) then st
  else
    {| visited := visited st ∪ {[nodeId connection]};
       recommendations :=
         match graph !! nodeId connection with
         | Some connectedNode =>
             if bool_decide (nodeId connection ∈ (recommendations st).*1)
             then recommendations st
             else recommendations st ++ [(nodeId connection, connectedNode)]
         | None => recommendations st
         end;
       queue :=
         if (length (queue st) <? limit * 2)%nat
         then queue st ++ [nodeId connection]
         else queue st |}.

(** The [while] loop, with a bound on the number of its turns: [None]
    when the bound is reached while the loop would go on. *)
Fixpoint traverse (turns : nat) (graph : gmap jsstring KnowledgeGraphNode)
  (limit : nat) (st : traversal) : option traversal :=
  match queue st with
  | [] => Some st
  | nodeId :: rest =>
      if (length (recommendations st) <? limit)%nat then
        match turns with
        | O => None
        | S turns' =>
            let st' := {| recommendations := recommendations st;
                          queue := rest;
                          visited := visited st |} in
            match graph !! nodeId with
            | Some node =>
                traverse turns' graph limit
                         (fold_left (visit graph limit) (connections node) st')
            | None => traverse turns' graph limit st'
            end
        end
      else Some st
  end.

(** The ids that some connection of the graph points to.  An id enters
    the queue when it is first visited, so the loop makes at most one
    turn for each of them after its first. *)
Definition targets (graph : gmap jsstring KnowledgeGraphNode) : gset jsstring :=
  ⋃ (map (fun e => list_to_set (map nodeId (connections (snd e))))
         (map_to_list graph)).

Definition getRecommendations (currentArticleId : jsstring)
  (graph : gmap jsstring KnowledgeGraphNode) (limit : nat)
  : option (list KnowledgeGraphNode) :=
  match graph !! currentArticleId with
  | None => Some []
  | Some currentNode =>
      st ← traverse (S (size (targets graph))) graph limit
             {| recommendations := [];
                queue := [currentArticleId];
                visited := {[currentArticleId]} |};
      Some (take limit (recommendations st).*2)
  end.

End CrossReference.

(** ** lib/schemas/jsonld.ts *)

Module JsonLd.

Record AtomicAnswer := {
  id : jsstring;
  heading : jsstring;
  answer : jsstring;
  relatedTopics : list jsstring;
  confidence : Q
}.

Definition isUpper (c : N) : bool := (65 <=? c)%N && (c <=? 90)%N.
Definition isLower (c : N) : bool := (97 <=? c)%N && (c <=? 122)%N.

(** /\b([A-Z][a-z]+ [A-Z][a-z]+)\b/g ; the group is the whole match. *)
Definition properNouns : regex :=
  Seq (Assert WordBoundary)
   (Seq (Char isUpper) (Seq (plus (Char isLower))
     (Seq (Char (N.eqb 32))
       (Seq (Char isUpper) (Seq (plus (Char isLower))
         (Assert WordBoundary)))))).

(** /\b(the [a-z]+)\b/gi ; with the flag i a letter matches in both
    cases. *)
Definition either (lower : N) : regex :=
  Char (fun c => (c =? lower)%N || (c =? lower - 32)%N).

Definition theNoun : regex :=
  Seq (Assert WordBoundary)
   (Seq (either 116) (Seq (either 104) (Seq (either 101)
     (Seq (Char (N.eqb 32))
       (Seq (plus (Char (fun c => isLower c || isUpper c)))
         (Assert WordBoundary)))))).

(** /[^.!?]+[.!?]+/g *)
Definition sentence : regex :=
  Seq (plus (Char (fun c => negb (Rag.isSentenceEnd c))))
      (plus (Char Rag.isSentenceEnd)).

(** [s.trim().split(/\s+/).length] *)
Definition wordsOf (s : jsstring) : nat :=
  length (split Rag.whitespace (trim s)).

(** The loop of [generateAnswerFirstSummary]; it stops at the first
    sentence that would pass the target by more than ten words. *)
Fixpoint answerFirstFrom (sentences : list jsstring) (targetWordCount : Z)
  (summary : jsstring) (wordCount : nat) : jsstring :=
  match sentences with
  | [] => summary
  | sentence :: rest =>
      let sentenceWords := wordsOf sentence in
      if (Z.of_nat (wordCount + sentenceWords) >? targetWordCount + 10)%Z
      then summary
      else answerFirstFrom rest targetWordCount
             (summary ++ str " " ++ trim sentence)
             (wordCount + sentenceWords)
  end.

Definition generateAnswerFirstSummary (content : jsstring)
  (targetWordCount : Z) : jsstring :=
  trim (answerFirstFrom (matchAll sentence content) targetWordCount [] 0).

Section WithCaseMapping.
Context `{CaseMapping}.

(** [entities] is a [Set]: its members in insertion order. *)
Definition extractEntities (text : jsstring) : list jsstring :=
  fold_left
    (fun entities pattern =>
       fold_left
         (fun entities hit =>
            let entity := toLowerCase hit in
            if bool_decide (entity ∈ entities) then entities
            else entities ++ [entity])
         (matchAll pattern text) entities)
    [properNouns; theNoun] [].

(** The variables of the loop of [extractAtomicAnswers]. *)
Record answering := {
  answers : list AtomicAnswer;
  currentAnswer : jsstring;
  wordCount : nat
}.

(** The object pushed on [answers], from the loop variables. *)
Definition answerOf (heading : jsstring) (st : answering) : AtomicAnswer :=
  {| id := replaceAll Rag.whitespace (str "-") (toLowerCase heading)
           ++ str "-" ++ decimal (length (answers st));
     heading := heading;
     answer := trim (currentAnswer st);
     relatedTopics := extractEntities (currentAnswer st);
     confidence := 95 # 100 |}.

(** One turn of the loop over the sentences. *)
Definition answerStep (heading : jsstring) (st : answering)
  (sentence : jsstring) : answering :=
  let words := wordsOf sentence in
  let st' :=
    if (60 <? wordCount st + words)%nat && truthy (trim (currentAnswer st))
    then {| answers := answers st ++ [answerOf heading st];
            currentAnswer := [];
            wordCount := 0 |}
    else st in
  {| answers := answers st';
     currentAnswer := currentAnswer st' ++ str " " ++ trim sentence;
     wordCount := wordCount st' + words |}.

Definition extractAtomicAnswers (content heading : jsstring)
  : list AtomicAnswer :=
  let sentences := matchAll sentence content in
  let st :=
    fold_left (answerStep heading) sentences
              {| answers := []; currentAnswer := []; wordCount := 0 |} in
  if truthy (trim (currentAnswer st))
     && (40 <=? wordCount st)%nat && (wordCount st <=? 60)%nat
  then answers st ++ [answerOf heading st]
  else answers st.

End WithCaseMapping.

End JsonLd.

(** * Properties *)

(** ** The runtime *)

Module JsFacts.

(** [Math.ceil (n / d)] is the least integer [c] with [n <= d * c]. *)
Lemma ceilDiv_bounds (n d : Z) :
  (0 < d)%Z → (d * (ceilDiv n d - 1) < n ≤ d * ceilDiv n d)%Z.
Proof.
  intros Hd.
  assert (E : ceilDiv n d = (- ((- n) / d))%Z).
  { unfold ceilDiv, Qceiling. f_equal. rewrite Zdiv_Qdiv.
    apply Qfloor_comp. unfold Qdiv. rewrite inject_Z_opp. ring. }
  rewrite E.
  pose proof (Z.mul_div_le (- n) d Hd).
  pose proof (Z.mul_succ_div_gt (- n) d Hd).
  lia.
Qed.

Lemma ceilDiv_mono_divisor (n d e : Z) :
  (0 ≤ n)%Z → (0 < d ≤ e)%Z → (ceilDiv n e ≤ ceilDiv n d)%Z.
Proof.
  intros Hn [Hd He].
  pose proof (ceilDiv_bounds n d Hd) as [_ Hb].
  pose proof (ceilDiv_bounds n e ltac:(lia)) as [Ha _].
  set (a := ceilDiv n e) in *. set (b := ceilDiv n d) in *.
  assert (0 ≤ b)%Z by nia.
  destruct (Z_le_gt_dec a b) as [|Hgt]; [done|].
  assert (e * b ≤ e * (a - 1))%Z by (apply Z.mul_le_mono_nonneg_l; lia).
  assert (d * b ≤ e * b)%Z by (apply Z.mul_le_mono_nonneg_r; lia).
  lia.
Qed.

Lemma len_nonneg (s : jsstring) : (0 ≤ len s)%Z.
Proof. unfold len. lia. Qed.

Lemma len_app (s t : jsstring) : len (s ++ t) = (len s + len t)%Z.
Proof. unfold len. rewrite length_app. lia. Qed.

Lemma truthy_false (s : jsstring) : truthy s = false ↔ s = [].
Proof. destruct s; simpl; split; congruence. Qed.

Lemma truthy_true_length (s : jsstring) :
  truthy s = true ↔ (0 < length s)%nat.
Proof. destruct s; simpl; split; (congruence || lia). Qed.

(** [split] makes at most one more segment than the string has code
    units. *)
Lemma splitFrom_length (r : regex) (aft bef cur : jsstring) (skip : nat) :
  (length (splitFrom r bef aft skip cur) ≤ S (length aft))%nat.
Proof.
  revert bef cur skip.
  induction aft as [|c aft IH]; intros bef cur skip; simpl; [lia|].
  destruct skip as [|k].
  - destruct (matchAt r bef (c :: aft)) as [[|n]|].
    + destruct (truthy cur); simpl;
        [specialize (IH (c :: bef) [c] 0%nat)
        |specialize (IH (c :: bef) (c :: cur) 0%nat)]; lia.
    + simpl. specialize (IH (c :: bef) [] n). lia.
    + specialize (IH (c :: bef) (c :: cur) 0%nat). lia.
  - specialize (IH (c :: bef) cur k). lia.
Qed.

Lemma split_length (r : regex) (s : jsstring) :
  (length (split r s) ≤ S (length s))%nat.
Proof.
  destruct s as [|c s]; simpl.
  - destruct (matchAt r [] []); simpl; lia.
  - apply (splitFrom_length r (c :: s) [] [] 0).
Qed.

End JsFacts.

(** ** Sorting by a key *)

Module SortFacts.

Section SortByKey.
Context {A : Type} (key : A → Q).

(** The comparator [(a, b) => key(b) - key(a)]: descending keys. *)
Definition descending (a b : A) : Q := (key b - key a)%Q.

Definition notBelow (a b : A) : Prop := (key b <= key a)%Q.

Lemma descending_le (x y : A) :
  Qle_bool (descending x y) 0 = true ↔ (key y <= key x)%Q.
Proof. rewrite Qle_bool_iff. unfold descending. split; intros; lra. Qed.

Lemma sortInsert_perm (x : A) (l : list A) :
  Permutation (sortInsert descending x l) (x :: l).
Proof.
  induction l as [|y l IH]; simpl; [done|].
  destruct (Qle_bool (descending x y) 0); [done|].
  rewrite IH. apply perm_swap.
Qed.

Lemma sort_perm (l : list A) : Permutation (sort descending l) l.
Proof.
  induction l as [|x l IH]; simpl; [done|].
  rewrite sortInsert_perm. by constructor.
Qed.

Lemma sortInsert_sorted (x : A) (l : list A) :
  StronglySorted notBelow l → StronglySorted notBelow (sortInsert descending x l).
Proof.
  induction l as [|y l IH]; simpl; intros Hl.
  - repeat constructor.
  - apply StronglySorted_inv in Hl as [Hl Hy].
    destruct (Qle_bool (descending x y) 0) eqn:E.
    + apply descending_le in E. constructor; [by constructor|].
      constructor; [done|].
      eapply Forall_impl; [exact Hy|]. unfold notBelow. cbv beta. intros. lra.
    + constructor; [by apply IH|].
      rewrite (sortInsert_perm x l). constructor; [|done].
      unfold notBelow. destruct (Qlt_le_dec (key y) (key x)) as [|Hle]; [|done].
      assert (Qle_bool (descending x y) 0 = true) by (apply descending_le; lra).
      congruence.
Qed.

Lemma sort_sorted (l : list A) : StronglySorted notBelow (sort descending l).
Proof.
  induction l as [|x l IH]; simpl; [constructor|]. by apply sortInsert_sorted.
Qed.




End SortByKey.


End SortFacts.

(** ** lib/rag.ts *)

Module RagProperties.
Import Rag JsFacts.

(** The text the chunker works on: the sentences joined with single
    spaces, as the loop joins them while no chunk is cut. *)
Definition joinSentences (sentences : list jsstring) : jsstring :=
  fold_left
    (fun text sentence =>
       text ++ (if truthy text then str " " else []) ++ sentence)
    sentences [].



Definition startOf (c : ChunkedContent) : Z := startChar (metadata c).
Definition endOf (c : ChunkedContent) : Z := endChar (metadata c).













Lemma fold_left_invariant {A B} (f : A → B → A) (P : list B → A → Prop) a0 :
  P [] a0 → (∀ l a x, P l a → P (l ++ [x]) (f a x)) →
  ∀ l, P l (fold_left f l a0).
Proof.
  intros H0 Hstep l. induction l as [|x l IH] using rev_ind; [done|].
  rewrite fold_left_app. simpl. by apply Hstep.
Qed.

Lemma Sorted_snoc (l : list Z) (y : Z) :
  Sorted Z.le l → Forall (fun x => (x ≤ y)%Z) l → Sorted Z.le (l ++ [y]).
Proof.
  induction l as [|a l IH]; simpl; intros Hs Hf.
  - repeat constructor.
  - apply Sorted_inv in Hs as [Hs Hd]. apply Forall_cons in Hf as [Ha Hf].
    constructor; [by apply IH|].
    destruct l as [|b l]; simpl; constructor; [done|].
    by apply HdRel_inv in Hd.
Qed.

Section Chunking.
Variables (chunkSize overlapSize : Z) (articleId title : jsstring).

Let step := chunkStep chunkSize overlapSize articleId title.

(** *** Indices and offsets in order *)

Record ordered (st : chunking) : Prop := {
  ordered_index : map chunkIndex (chunks st) = seq 0 (chunkIndexNow st);
  ordered_start : Sorted Z.le (map startOf (chunks st));
  ordered_start_le :
    Forall (fun c => (startOf c ≤ startCharNow st)%Z) (chunks st);
  ordered_end : Sorted Z.le (map endOf (chunks st));
  ordered_end_le :
    Forall (fun c => (endOf c ≤ startCharNow st + len (currentChunk st))%Z)
           (chunks st)
}.

Lemma ordered_push (st : chunking) :
  ordered st →
  let cs := chunks st ++ [chunkOf articleId title st] in
  map chunkIndex cs = seq 0 (S (chunkIndexNow st))
  ∧ Sorted Z.le (map startOf cs) ∧ Sorted Z.le (map endOf cs).
Proof.
  intros [Hi Hs Hsl He Hel]. cbv zeta. rewrite !map_app.
  split; [|split].
  - rewrite Hi, seq_S. done.
  - apply Sorted_snoc; [done|]. by apply Forall_map.
  - apply Sorted_snoc; [done|]. by apply Forall_map.
Qed.

Lemma ordered_start_state : ordered chunkStart.
Proof. split; simpl; constructor. Qed.

Lemma ordered_step (st : chunking) (sentence : jsstring) :
  ordered st → ordered (step st sentence).
Proof.
  intros Hst. pose proof (ordered_push st Hst) as (Hi & Hs & He).
  destruct Hst as [Hi0 Hs0 Hsl He0 Hel].
  unfold step, chunkStep.
  set (potential := currentChunk st ++ _ ++ sentence).
  assert (Hgrow : (len (currentChunk st) ≤ len potential)%Z).
  { unfold potential. rewrite len_app. pose proof (len_nonneg
      ((if truthy (currentChunk st) then str " " else []) ++ sentence)). lia. }
  destruct ((len potential >? chunkSize)%Z && truthy (currentChunk st)).
  - set (overlapStart := Z.max 0 (len (currentChunk st) - overlapSize)).
    assert (Hend : (startCharNow st + len (currentChunk st)
                    ≤ startCharNow st + overlapStart
                      + len (sliceFrom overlapStart (currentChunk st)
                             ++ str " " ++ sentence))%Z).
    { assert (0 ≤ overlapStart)%Z by (unfold overlapStart; lia).
      clearbody overlapStart.
      rewrite !len_app. unfold sliceFrom, len. rewrite length_drop.
      simpl. lia. }
    assert (0 ≤ overlapStart)%Z by (unfold overlapStart; lia).
    clearbody overlapStart.
    split; cbn [chunks currentChunk startCharNow chunkIndexNow]; try done.
    + apply Forall_app. split.
      * eapply Forall_impl; [exact Hsl|]. cbv beta. intros. lia.
      * repeat constructor. unfold startOf. simpl. lia.
    + apply Forall_app. split.
      * eapply Forall_impl; [exact Hel|]. cbv beta. intros. lia.
      * repeat constructor. unfold endOf. cbn [chunkOf metadata endChar]. lia.
  - split; cbn [chunks currentChunk startCharNow chunkIndexNow]; try done.
    eapply Forall_impl; [exact Hel|]. cbv beta. intros. lia.
Qed.

Lemma ordered_fold (sentences : list jsstring) :
  ordered (fold_left step sentences chunkStart).
Proof.
  apply (fold_left_invariant step (fun _ st => ordered st)).
  - apply ordered_start_state.
  - intros. by apply ordered_step.
Qed.

Lemma chunkSentences_ordered (sentences : list jsstring) :
  let cs := chunkSentences sentences chunkSize overlapSize articleId title in
  map chunkIndex cs = seq 0 (length cs)
  ∧ Sorted Z.le (map startOf cs) ∧ Sorted Z.le (map endOf cs).
Proof.
  unfold chunkSentences. fold step.
  pose proof (ordered_fold sentences) as Hst.
  set (st := fold_left step sentences chunkStart) in *.
  assert (Hn : length (chunks st) = chunkIndexNow st).
  { rewrite <- (length_map chunkIndex), (ordered_index _ Hst).
    apply length_seq. }
  destruct (truthy (trim (currentChunk st))).
  - pose proof (ordered_push st Hst) as (Hi & Hs & He). simpl in *.
    rewrite length_app. simpl. rewrite Hn.
    replace (chunkIndexNow st + 1)%nat with (S (chunkIndexNow st)) by lia.
    done.
  - simpl. rewrite Hn. destruct Hst. done.
Qed.

(** *** At most one chunk for each sentence *)

Lemma chunk_count_fold (sentences : list jsstring) :
  let st := fold_left step sentences chunkStart in
  (length (chunks st) + (if truthy (currentChunk st) then 1 else 0)
   ≤ length sentences)%nat.
Proof.
  apply (fold_left_invariant step
    (fun l st => (length (chunks st)
                  + (if truthy (currentChunk st) then 1 else 0)
                  ≤ length l)%nat)).
  - simpl. lia.
  - intros l st x IH. rewrite length_app. simpl.
    unfold step, chunkStep.
    destruct (truthy (currentChunk st)) eqn:Hcur; simpl in IH.
    + destruct (len _ >? chunkSize)%Z;
        cbn [andb chunks currentChunk]; rewrite ?length_app; simpl.
      * destruct (sliceFrom _ _ ++ _); simpl; lia.
      * destruct (currentChunk st ++ _); simpl; lia.
    + rewrite andb_false_r. cbn [chunks currentChunk].
      destruct (truthy (currentChunk st ++ _)); lia.
Qed.

Lemma chunkSentences_count (sentences : list jsstring) :
  (length (chunkSentences sentences chunkSize overlapSize articleId title)
   ≤ length sentences)%nat.
Proof.
  unfold chunkSentences. fold step.
  pose proof (chunk_count_fold sentences) as Hn. cbv zeta in Hn.
  set (st := fold_left step sentences chunkStart) in *.
  destruct (truthy (trim (currentChunk st))) eqn:Ht.
  - rewrite length_app. simpl.
    destruct (currentChunk st); [discriminate Ht|]. simpl in Hn. lia.
  - lia.
Qed.

(** *** The windows cover the joined text *)

Hypothesis overlap_nonneg : (0 ≤ overlapSize)%Z.






Lemma joinSentences_snoc (sentences : list jsstring) (sentence : jsstring) :
  joinSentences (sentences ++ [sentence])
  = joinSentences sentences
    ++ (if truthy (joinSentences sentences) then str " " else [])
    ++ sentence.
Proof. unfold joinSentences. by rewrite fold_left_app. Qed.


End Chunking.




(** C9.  [estimateTokens] returns the ceilings of a quarter, a fifth and a
    third of the length: each is the least integer whose multiple reaches
    the length.  So [min <= approximate <= max] for every text, and the
    empty string has the estimate zero throughout. *)
Theorem estimateTokens_ceilings (text : jsstring) :
  (4 * (approximate (estimateTokens text) - 1) < len text
     ≤ 4 * approximate (estimateTokens text))%Z
  ∧ (5 * (min (range (estimateTokens text)) - 1) < len text
     ≤ 5 * min (range (estimateTokens text)))%Z
  ∧ (3 * (max (range (estimateTokens text)) - 1) < len text
     ≤ 3 * max (range (estimateTokens text)))%Z
  ∧ (min (range (estimateTokens text)) ≤ approximate (estimateTokens text)
     ≤ max (range (estimateTokens text)))%Z
  ∧ estimateTokens []
    = {| approximate := 0; range := {| min := 0; max := 0 |} |}.
Proof.
  cbn [estimateTokens approximate range min max].
  pose proof (len_nonneg text).
  repeat split; try (apply ceilDiv_bounds; lia);
    apply ceilDiv_mono_divisor; lia.
Qed.

(** C10.  [chunkContent] is a single pass over the sentences of the
    content: for every chunk size and overlap, the overlap at least the
    chunk size included, it returns a list with at most one chunk for each
    sentence, and the sentences are at most one more than the code units
    of the content. *)
Theorem chunkContent_terminates (content : jsstring) (chunkSize overlapSize : Z)
  (articleId title : jsstring) :
  (length (chunkContent content chunkSize overlapSize articleId title)
   ≤ length (split sentenceBreak content))%nat
  ∧ (length (split sentenceBreak content) ≤ S (length content))%nat.
Proof.
  split.
  - apply chunkSentences_count.
  - apply split_length.
Qed.

(** C7.  The chunks of [chunkContent] carry the indices 0, 1, ..., n-1 in
    this order, and both their [startChar] and their [endChar] never
    decrease from a chunk to the next. *)
Theorem chunkContent_indices_and_offsets (content : jsstring)
  (chunkSize overlapSize : Z) (articleId title : jsstring) :
  map chunkIndex (chunkContent content chunkSize overlapSize articleId title)
  = seq 0 (length (chunkContent content chunkSize overlapSize articleId title))
  ∧ Sorted Z.le
      (map startOf (chunkContent content chunkSize overlapSize articleId title))
  ∧ Sorted Z.le
      (map endOf (chunkContent content chunkSize overlapSize articleId title)).
Proof. apply chunkSentences_ordered. Qed.


(** An article of 500 words: fifty sentences of ten words, separated by
    single spaces. *)
Definition article500 : jsstring :=
  str "Alpha beta gamma delta epsilon zeta eta theta iota kappa."
  ++ concat (replicate 49
       (str " Alpha beta gamma delta epsilon zeta eta theta iota kappa.")).

Example article500_words : JsonLd.wordsOf article500 = 500%nat.
Proof. vm_compute. reflexivity. Qed.



End RagProperties.

Module ScorerProperties.
Import Rag.

(** A code unit with no meaning in a pattern. *)
Definition isPlain (c : N) : bool :=
  negb ((c =? 92)%N || (c =? 40)%N || (c =? 41)%N || (c =? 124)%N
        || (c =? 42)%N || (c =? 43)%N || (c =? 63)%N || (c =? 91)%N
        || (c =? 123)%N || (c =? 94)%N || (c =? 36)%N || (c =? 46)%N).

Lemma parse_plain (term rest : jsstring) (top : frame) (stack : list frame)
  (q : bool) :
  forallb isPlain term = true →
  parse (term ++ rest) top stack q
  = parse rest
      (Frame (alts top) (rev (map (fun c => Char (N.eqb c)) term) ++ terms top))
      stack (if term then q else true).
Proof.
  revert top q. induction term as [|c term IH]; intros top q Hp.
  - by destruct top.
  - simpl in Hp. apply andb_prop in Hp as [Hc Hp].
    unfold isPlain in Hc. apply negb_true_iff in Hc.
    repeat (apply orb_false_elim in Hc as [Hc ?]).
    cbn [app parse]. rewrite Hc.
    repeat match goal with H : (_ =? _)%N = false |- _ => rewrite H; clear H end.
    cbn [orb]. rewrite IH by done. f_equal.
    + unfold addTerm. cbn [alts terms map rev]. f_equal.
      by rewrite <- app_assoc.
    + by destruct term.
Qed.

(** The expression for a term of plain code units is well formed. *)
Lemma RegExp_plain (term : jsstring) :
  forallb isPlain term = true →
  ∃ r, RegExp (str "\b" ++ term ++ str "\b") = Returns r.
Proof.
  intros Hp. unfold RegExp. change (str "\b") with [92%N; 98%N].
  cbn [app parse N.eqb Pos.eqb atomEscape]. 
  rewrite parse_plain by done. cbn [parse N.eqb Pos.eqb atomEscape].
  eexists. reflexivity.
Qed.

Section Scorer.
Context `{CaseMapping}.

Lemma countTerms_plain (content contentLower : jsstring) (terms : list jsstring)
  (matchCount : nat) :
  Forall (fun term => forallb isPlain term = true) terms →
  ∃ n, countTerms content contentLower matchCount terms = Returns n.
Proof.
  revert matchCount. induction terms as [|term terms IH]; intros n Hp.
  - by exists n.
  - apply Forall_cons in Hp as [Ht Hp]. cbn [countTerms]. unfold countTerm.
    destruct (includes contentLower term).
    + destruct (RegExp_plain term Ht) as [r ->].
      cbn [mbind outcome_bind mret outcome_ret]. by apply IH.
    + cbn [mbind outcome_bind mret outcome_ret]. by apply IH.
Qed.

(** For a query whose terms have no code unit that means something in a
    pattern, [calculateSimilarityScore] returns a score, which is not
    negative. *)
Lemma calculateSimilarityScore_returns (query content : jsstring) :
  Forall (fun term => forallb isPlain term = true)
         (split whitespace (toLowerCase query)) →
  ∃ score, calculateSimilarityScore query content = Returns score
           ∧ (0 <= score)%Q.
Proof.
  intros Hp. unfold calculateSimilarityScore.
  destruct (countTerms_plain content (toLowerCase content) _ 0 Hp) as [n ->].
  cbn [mbind outcome_bind mret outcome_ret]. eexists. split; [done|].
  apply Qle_shift_div_l.
  - change 0%Q with (inject_Z 0). rewrite <- Zlt_Qlt. lia.
  - rewrite Qmult_0_l. change 0%Q with (inject_Z 0). rewrite <- Zle_Qle. lia.
Qed.

End Scorer.

End ScorerProperties.

Module RankingProperties.
Import Rag JsFacts SortFacts ScorerProperties.

Section Ranking.
Context `{CaseMapping}.

(** The score of a chunk for a query, when the scorer returns. *)
Definition scoreOf (query : jsstring) (c : ChunkedContent) : Q :=
  match calculateSimilarityScore query (content c) with
  | Returns score => score
  | _ => 0
  end.

Definition scored (query : jsstring) (c : ChunkedContent) : RankedChunk :=
  {| chunk := c; relevanceScore := scoreOf query c |}.



Lemma mapM_returns {A B} (f : A → outcome B) (xs : list A) :
  Forall (fun x => ∃ y, f x = Returns y) xs → ∃ ys, mapM f xs = Returns ys.
Proof.
  induction xs as [|x xs IH]; intros Hxs; [by exists []|].
  apply Forall_cons in Hxs as [[y Hy] Hxs]. destruct (IH Hxs) as [ys Hys].
  exists (y :: ys). cbn [mapM]. rewrite Hy. cbn [mbind outcome_bind].
  rewrite Hys. done.
Qed.

(** X9.  For a query whose terms have no code unit that means something
    in a pattern, [rankChunksForQuery] returns: the scorer throws for no
    chunk. *)
Lemma rankChunksForQuery_returns_plain (chunks : list ChunkedContent)
  (query : jsstring) (topK : nat) :
  Forall (fun term => forallb isPlain term = true)
         (split whitespace (toLowerCase query)) →
  ∃ ranked, rankChunksForQuery chunks query topK = Returns ranked.
Proof.
  intros Hp. unfold rankChunksForQuery.
  destruct (mapM_returns
              (fun chunk =>
                 score ← calculateSimilarityScore query (content chunk);
                 mret {| chunk := chunk; relevanceScore := score |})
              chunks) as [rs ->].
  - apply Forall_forall. intros c _.
    destruct (calculateSimilarityScore_returns query (content c) Hp)
      as (score & -> & _).
    by eexists.
  - by eexists.
Qed.


End Ranking.


Lemma rankChunksForQuery_returns_plain_witness :
  let H : CaseMapping := asciiToLowerCase in
  let chunks :=
    chunkContent (str "Aaa bbb. Ccc bbb bbb. Ddd. Eee bbb.") 12 0
                 (str "art1") (str "T") in
  ∃ ranked, rankChunksForQuery chunks (str "Bbb  ddd_1") 2 = Returns ranked.
Proof.
  intros H chunks.
  apply (rankChunksForQuery_returns_plain chunks (str "Bbb  ddd_1") 2).
  vm_compute. repeat constructor.
Defined.

End RankingProperties.

Module ChunkRecords.
Import Rag JsFacts RagProperties.

Lemma trim_blank_of_empty (s : jsstring) :
  truthy (trim s) = true → truthy s = true.
Proof. by destruct s. Qed.

(** What every chunk of an article says about itself. *)
Record consistent (articleId title : jsstring) (c : ChunkedContent) : Prop := {
  consistent_id :
    id c = articleId ++ str "-chunk-" ++ decimal (chunkIndex c);
  consistent_article : Rag.articleId c = articleId;
  consistent_title : Rag.title (metadata c) = title;
  consistent_content : truthy (content c) = true;
  consistent_tokens :
    tokens (metadata c) = approximate (estimateTokens (content c));
  consistent_end : endOf c = (startOf c + len (content c))%Z
}.

Section Records.
Variables (chunkSize overlapSize : Z) (articleId title : jsstring).

Lemma chunkOf_consistent (st : chunking) :
  truthy (currentChunk st) = true →
  consistent articleId title (chunkOf articleId title st).
Proof. intros Ht. by split. Qed.

Lemma chunkStep_consistent (st : chunking) (sentence : jsstring) :
  Forall (consistent articleId title) (chunks st) →
  Forall (consistent articleId title)
    (chunks (chunkStep chunkSize overlapSize articleId title st sentence)).
Proof.
  intros Hst. unfold chunkStep.
  destruct (len _ >? chunkSize)%Z; [|done].
  destruct (truthy (currentChunk st)) eqn:Ht; [|done].
  cbn [andb chunks]. apply Forall_app. split; [done|].
  apply Forall_singleton. by apply chunkOf_consistent.
Qed.

Lemma chunkSentences_consistent (sentences : list jsstring) :
  Forall (consistent articleId title)
    (chunkSentences sentences chunkSize overlapSize articleId title).
Proof.
  unfold chunkSentences.
  assert (Hfold : Forall (consistent articleId title)
            (chunks (fold_left (chunkStep chunkSize overlapSize articleId title)
                               sentences chunkStart))).
  { apply (fold_left_invariant _
             (fun _ st => Forall (consistent articleId title) (chunks st))).
    - constructor.
    - intros l st x. apply chunkStep_consistent. }
  destruct (truthy (trim _)) eqn:Ht; [|done].
  apply Forall_app. split; [done|]. apply Forall_singleton.
  apply chunkOf_consistent. by apply trim_blank_of_empty.
Qed.

(** *** No chunk is much longer than the chunk size *)

(** The bound: the chunk size, or a sentence with the overlap and a space
    before it when that is longer. *)
Definition chunkBound (longest : Z) : Z :=
  Z.max chunkSize (Z.max 0 overlapSize + 1 + longest).

Lemma chunkStep_bounded (longest : Z) (st : chunking) (sentence : jsstring) :
  (len sentence ≤ longest)%Z →
  (len (currentChunk st) ≤ chunkBound longest)%Z →
  Forall (fun c => (len (content c) ≤ chunkBound longest)%Z) (chunks st) →
  let st' := chunkStep chunkSize overlapSize articleId title st sentence in
  (len (currentChunk st') ≤ chunkBound longest)%Z
  ∧ Forall (fun c => (len (content c) ≤ chunkBound longest)%Z) (chunks st').
Proof.
  intros Hs Hcur Hchunks. cbv zeta. unfold chunkStep.
  destruct (len _ >? chunkSize)%Z eqn:Hbig.
  - destruct (truthy (currentChunk st)) eqn:Ht; cbn [andb chunks currentChunk].
    + split.
      * rewrite !len_app. unfold sliceFrom, len in *. rewrite length_drop.
        unfold chunkBound. simpl. lia.
      * apply Forall_app. split; [done|]. by apply Forall_singleton.
    + split; [|done]. apply truthy_false in Ht. rewrite Ht. simpl.
      unfold chunkBound. lia.
  - cbn [andb chunks currentChunk]. split; [|done].
    rewrite Z.gtb_ltb in Hbig. apply Z.ltb_ge in Hbig. unfold chunkBound. lia.
Qed.

Lemma chunkSentences_bounded (longest : Z) (sentences : list jsstring) :
  Forall (fun s => (len s ≤ longest)%Z) sentences →
  Forall (fun c => (len (content c) ≤ chunkBound longest)%Z)
    (chunkSentences sentences chunkSize overlapSize articleId title).
Proof.
  intros Hs. unfold chunkSentences.
  assert (Hfold : ∀ st,
    (len (currentChunk st) ≤ chunkBound longest)%Z →
    Forall (fun c => (len (content c) ≤ chunkBound longest)%Z) (chunks st) →
    let st' := fold_left (chunkStep chunkSize overlapSize articleId title)
                         sentences st in
    (len (currentChunk st') ≤ chunkBound longest)%Z
    ∧ Forall (fun c => (len (content c) ≤ chunkBound longest)%Z) (chunks st')).
  { induction Hs as [|s l Hs Hl IH]; intros st Hcur Hchunks; [done|].
    simpl. destruct (chunkStep_bounded longest st s Hs Hcur Hchunks).
    by apply IH. }
  assert (Hlong : (0 ≤ chunkBound longest)%Z ∨ sentences = []).
  { destruct Hs as [|s l Hs _]; [by right|left].
    pose proof (len_nonneg s). unfold chunkBound. lia. }
  destruct Hlong as [Hlong| ->].
  - destruct (Hfold chunkStart) as [Hcur Hchunks]; [done|constructor|].
    destruct (truthy (trim _)); [|done].
    apply Forall_app. split; [done|]. by apply Forall_singleton.
  - done.
Qed.

End Records.

(** The longest of the sentences. *)
Definition longest (sentences : list jsstring) : Z :=
  foldr (fun s m => Z.max (len s) m) 0%Z sentences.

Lemma longest_bound (sentences : list jsstring) :
  Forall (fun s => (len s ≤ longest sentences)%Z) sentences.
Proof.
  induction sentences as [|s l IH]; [constructor|]. simpl.
  constructor; [lia|]. eapply Forall_impl; [exact IH|]. cbv beta. lia.
Qed.


(** X1.  Every chunk is named after the article and its own index,
    carries the id of the article and the title, has a content that is
    not empty, the token estimate of this content, and an [endChar] that
    is its [startChar] plus the length of the content. *)
Theorem chunkContent_records (content : jsstring) (chunkSize overlapSize : Z)
  (articleId title : jsstring) :
  Forall (consistent articleId title)
    (chunkContent content chunkSize overlapSize articleId title).
Proof. apply chunkSentences_consistent. Qed.

(** X2.  No chunk is longer than the chunk size, unless a sentence is
    too long for it: then it is at most the longest sentence, the
    overlap and one space. *)
Theorem chunkContent_size (content : jsstring) (chunkSize overlapSize : Z)
  (articleId title : jsstring) :
  Forall (fun c =>
            (len (Rag.content c)
             ≤ Z.max chunkSize
                 (Z.max 0 overlapSize + 1
                  + longest (split sentenceBreak content)))%Z)
    (chunkContent content chunkSize overlapSize articleId title).
Proof. apply chunkSentences_bounded, longest_bound. Qed.

(** *** A content without sentence ends *)

Lemma matchAt_sentenceBreak_none (bef aft : jsstring) :
  match bef with x :: _ => isSentenceEnd x = false | [] => True end →
  matchAt sentenceBreak bef aft = None.
Proof.
  intros Hbef. unfold matchAt, sentenceBreak. cbn [run holds before].
  destruct bef as [|x bef]; [done|]. by rewrite Hbef.
Qed.

Lemma splitFrom_unsplit (aft bef cur : jsstring) :
  Forall (fun c => isSentenceEnd c = false) aft →
  match bef with x :: _ => isSentenceEnd x = false | [] => True end →
  splitFrom sentenceBreak bef aft 0 cur = [rev cur ++ aft].
Proof.
  revert bef cur. induction aft as [|c aft IH]; intros bef cur Haft Hbef.
  - simpl. by rewrite app_nil_r.
  - apply Forall_cons in Haft as [Hc Haft]. cbn [splitFrom].
    rewrite matchAt_sentenceBreak_none by done.
    rewrite IH by done. simpl. by rewrite <- app_assoc.
Qed.

Lemma split_unsplit (content : jsstring) :
  Forall (fun c => isSentenceEnd c = false) content →
  split sentenceBreak content = [content].
Proof.
  intros Hc. destruct content as [|c content]; [done|].
  unfold split. by rewrite splitFrom_unsplit.
Qed.

Lemma whiteSpace_not_sentenceEnd (c : N) :
  isWhiteSpace c = true → isSentenceEnd c = false.
Proof.
  intros Hc. unfold isSentenceEnd.
  destruct (c =? 46)%N eqn:E1; [apply N.eqb_eq in E1; by subst|].
  destruct (c =? 33)%N eqn:E2; [apply N.eqb_eq in E2; by subst|].
  destruct (c =? 63)%N eqn:E3; [apply N.eqb_eq in E3; by subst|].
  done.
Qed.

Lemma trimStart_blank (s : jsstring) :
  Forall (fun c => isWhiteSpace c = true) s → trimStart s = [].
Proof.
  induction 1 as [|c s Hc Hs IH]; [done|]. simpl. by rewrite Hc.
Qed.

Lemma chunkStep_first (chunkSize overlapSize : Z) (articleId title : jsstring)
  (sentence : jsstring) :
  chunkStep chunkSize overlapSize articleId title chunkStart sentence
  = {| chunks := []; currentChunk := sentence;
       startCharNow := 0; chunkIndexNow := 0 |}.
Proof.
  unfold chunkStep, chunkStart.
  cbn [currentChunk truthy chunks startCharNow chunkIndexNow app].
  by rewrite andb_false_r.
Qed.

(** X3.  A content without [.], [!] and [?] that is not blank gives one
    chunk, whatever the chunk size: the whole content, from 0 to its
    length. *)
Theorem chunkContent_unsplit (content : jsstring) (chunkSize overlapSize : Z)
  (articleId title : jsstring) :
  Forall (fun c => isSentenceEnd c = false) content →
  truthy (trim content) = true →
  ∃ c, chunkContent content chunkSize overlapSize articleId title = [c]
       ∧ Rag.content c = content
       ∧ chunkIndex c = 0%nat
       ∧ startOf c = 0%Z ∧ endOf c = len content.
Proof.
  intros Hc Ht. unfold chunkContent. rewrite split_unsplit by done.
  unfold chunkSentences. cbn [fold_left]. rewrite chunkStep_first.
  cbn [currentChunk chunks app]. rewrite Ht.
  eexists. split; [reflexivity|]. done.
Qed.

Lemma chunkContent_unsplit_witness :
  ∃ c, chunkContent (str "no sentence end, only commas") 8 2
         (str "art1") (str "T") = [c]
       ∧ Rag.content c = str "no sentence end, only commas"
       ∧ chunkIndex c = 0%nat
       ∧ startOf c = 0%Z
       ∧ endOf c = len (str "no sentence end, only commas").
Proof.
  apply (chunkContent_unsplit (str "no sentence end, only commas") 8 2
           (str "art1") (str "T")).
  - vm_compute. repeat constructor.
  - vm_compute. reflexivity.
Defined.

(** X4.  A content of white space only, the empty one included, gives
    no chunk. *)
Theorem chunkContent_blank (content : jsstring) (chunkSize overlapSize : Z)
  (articleId title : jsstring) :
  Forall (fun c => isWhiteSpace c = true) content →
  chunkContent content chunkSize overlapSize articleId title = [].
Proof.
  intros Hc. unfold chunkContent. rewrite split_unsplit.
  - unfold chunkSentences. cbn [fold_left]. rewrite chunkStep_first.
    cbn [currentChunk chunks].
    unfold trim. by rewrite trimStart_blank.
  - eapply Forall_impl; [exact Hc|]. apply whiteSpace_not_sentenceEnd.
Qed.

Lemma chunkContent_blank_witness :
  chunkContent [32%N; 10%N; 9%N; 32%N] 1024 128 (str "art1") (str "T") = [].
Proof.
  apply (chunkContent_blank [32%N; 10%N; 9%N; 32%N] 1024 128
           (str "art1") (str "T")).
  repeat constructor.
Defined.

End ChunkRecords.

Module NumeralFacts.

Lemma str_inj (s t : string) : str s = str t → s = t.
Proof.
  unfold str. intros E.
  rewrite <- (string_of_list_ascii_of_string s),
          <- (string_of_list_ascii_of_string t).
  f_equal. revert E.
  generalize (list_ascii_of_string s) (list_ascii_of_string t).
  induction l as [|a l IH]; intros [|b l'] E; try done.
  cbn [map] in E. injection E as Eab E. f_equal; [|by apply IH].
  by rewrite <- (ascii_N_embedding a), <- (ascii_N_embedding b), Eab.
Qed.

Lemma to_uint_nonnil (n : nat) : Nat.to_uint n ≠ Decimal.Nil.
Proof.
  intros E. pose proof (DecimalNat.Unsigned.to_of (Nat.to_uint n)) as Hn.
  rewrite DecimalNat.Unsigned.of_to, E in Hn. discriminate Hn.
Qed.

(** Two numbers with the same numeral are equal. *)
Lemma decimal_inj (n m : nat) : decimal n = decimal m → n = m.
Proof.
  unfold decimal. intros E. apply str_inj in E.
  apply DecimalNat.Unsigned.to_uint_inj.
  assert (Some (Nat.to_uint n) = Some (Nat.to_uint m)) as [= ->]; [|done].
  rewrite <- (NilZero.usu (Nat.to_uint n)) by apply to_uint_nonnil.
  rewrite <- (NilZero.usu (Nat.to_uint m)) by apply to_uint_nonnil.
  by rewrite E.
Qed.

End NumeralFacts.

Module IdProperties.
Import Rag JsFacts RagProperties ChunkRecords NumeralFacts.

(** X20.  The ids of the chunks of an article are pairwise distinct. *)
Theorem chunkContent_ids_distinct (content : jsstring)
  (chunkSize overlapSize : Z) (articleId title : jsstring) :
  NoDup (map id (chunkContent content chunkSize overlapSize articleId title)).
Proof.
  unfold chunkContent.
  pose proof (chunkSentences_consistent chunkSize overlapSize articleId title
                (split sentenceBreak content)) as Hid.
  destruct (chunkSentences_ordered chunkSize overlapSize articleId title
              (split sentenceBreak content)) as [Hindex _].
  set (result := chunkSentences _ _ _ _ _) in *.
  assert (NoDup (map chunkIndex result)) as Hnd
    by (rewrite Hindex; apply NoDup_ListNoDup, List.seq_NoDup).
  clear Hindex. induction result as [|c l IH]; [constructor|].
  cbn [map] in *. apply Forall_cons in Hid as [Hc Hl].
  apply NoDup_cons in Hnd as [Hout Hnd].
  apply NoDup_cons. split; [|by apply IH].
  intros Hin. apply Hout.
  apply list_elem_of_fmap in Hin as (c' & E & Hc').
  apply list_elem_of_fmap. exists c'. split; [|done].
  rewrite Forall_forall in Hl. specialize (Hl c' Hc').
  rewrite (consistent_id _ _ _ Hc), (consistent_id _ _ _ Hl) in E.
  apply app_inv_head in E. apply app_inv_head in E. by apply decimal_inj.
Qed.

End IdProperties.

Module ContextProperties.
Import Rag JsFacts RagProperties.

(** The tokens that a list of chunks is recorded to hold. *)
Definition tokensOf (chunks : list ChunkedContent) : Z :=
  foldr (fun c total => (tokens (metadata c) + total)%Z) 0%Z chunks.

Lemma formatContextFrom_prefix (chunks : list ChunkedContent) (maxTokens : Z)
  (result : jsstring) (tokenCount : Z) :
  ∃ n : nat,
    (n ≤ length chunks)%nat
    ∧ formatContextFrom chunks maxTokens result tokenCount
      = result ++ concat (map contextEntry (take n chunks))
    ∧ (n = 0%nat ∨ (tokenCount + tokensOf (take n chunks) ≤ maxTokens)%Z)
    ∧ ((n < length chunks)%nat →
       (maxTokens < tokenCount + tokensOf (take (S n) chunks))%Z).
Proof.
  revert result tokenCount.
  induction chunks as [|c chunks IH]; intros result tokenCount.
  - exists 0%nat. simpl. rewrite app_nil_r. repeat split; auto; lia.
  - cbn [formatContextFrom].
    destruct (tokenCount + tokens (metadata c) >? maxTokens)%Z eqn:Hfit.
    + exists 0%nat. rewrite Z.gtb_ltb in Hfit. apply Z.ltb_lt in Hfit.
      simpl. rewrite app_nil_r. repeat split; auto; lia.
    + rewrite Z.gtb_ltb in Hfit. apply Z.ltb_ge in Hfit.
      destruct (IH (result ++ contextEntry c)
                   (tokenCount + tokens (metadata c))%Z)
        as (n & Hn & -> & Hsum & Hstop).
      exists (S n). cbn [take map concat tokensOf foldr length].
      fold (tokensOf (take n chunks)).
      repeat split.
      * lia.
      * by rewrite <- app_assoc.
      * right. destruct Hsum as [->|Hsum]; [simpl; lia|lia].
      * intros Hlt. assert (n < length chunks)%nat as Hlt' by lia.
        specialize (Hstop Hlt'). cbn [take tokensOf foldr] in Hstop.
        fold (tokensOf (take n chunks)) in Hstop.
        destruct chunks as [|c' chunks']; [simpl in Hlt'; lia|].
        cbn [take tokensOf foldr] in *. lia.
Qed.

(** X5.  The context is made of the entries of a prefix of the chunks: the
    tokens of the chunks taken are within [maxTokens], and the first
    chunk left out would have exceeded it. *)
Theorem formatContextForLLM_prefix (chunks : list ChunkedContent)
  (maxTokens : Z) :
  ∃ n : nat,
    (n ≤ length chunks)%nat
    ∧ formatContextForLLM chunks maxTokens
      = concat (map contextEntry (take n chunks))
    ∧ (n = 0%nat ∨ (tokensOf (take n chunks) ≤ maxTokens)%Z)
    ∧ ((n < length chunks)%nat →
       (maxTokens < tokensOf (take (S n) chunks))%Z).
Proof.
  destruct (formatContextFrom_prefix chunks maxTokens [] 0)
    as (n & Hn & E & Hsum & Hstop).
  by exists n.
Qed.

Lemma keySummaryFrom_prefix (sentences done : list jsstring) (maxLength : Z) :
  ∃ n : nat,
    (n ≤ length sentences)%nat
    ∧ keySummaryFrom sentences maxLength (joinSentences done)
      = joinSentences (done ++ take n sentences)
    ∧ (n = 0%nat
       ∨ (len (joinSentences (done ++ take n sentences)) ≤ maxLength + 1)%Z)
    ∧ (∀ sentence, sentences !! n = Some sentence →
       (maxLength
        < len (joinSentences (done ++ take n sentences)) + len sentence)%Z).
Proof.
  revert done. induction sentences as [|s sentences IH]; intros done.
  - exists 0%nat. simpl. rewrite app_nil_r. repeat split; auto. done.
  - cbn [keySummaryFrom].
    destruct (len (joinSentences done) + len s >? maxLength)%Z eqn:Hfit.
    + exists 0%nat. rewrite Z.gtb_ltb in Hfit. apply Z.ltb_lt in Hfit.
      simpl. rewrite app_nil_r. repeat split; auto; [lia|].
      intros sentence [= <-]. lia.
    + rewrite Z.gtb_ltb in Hfit. apply Z.ltb_ge in Hfit.
      rewrite <- joinSentences_snoc.
      destruct (IH (done ++ [s])) as (n & Hn & -> & Hlen & Hstop).
      exists (S n). cbn [take length lookup list_lookup].
      rewrite <- !app_assoc in *. cbn [app] in *.
      repeat split.
      * lia.
      * right. destruct Hlen as [->|Hlen]; [|done].
        simpl. change (done ++ [s]) with (done ++ [s]).
        rewrite joinSentences_snoc, !len_app.
        destruct (truthy (joinSentences done));
          [change (len (str " ")) with 1%Z|change (len []) with 0%Z]; lia.
      * exact Hstop.
Qed.

(** X6.  The summary joins a prefix of the sentences with single spaces; it
    can be one code unit longer than [maxLength], and the first sentence
    left out would not have passed the test of the loop. *)
Theorem extractKeySummary_prefix (content : jsstring) (maxLength : Z) :
  ∃ n : nat,
    (n ≤ length (split sentenceBreak content))%nat
    ∧ extractKeySummary content maxLength
      = joinSentences (take n (split sentenceBreak content))
    ∧ (len (extractKeySummary content maxLength) ≤ Z.max 0 (maxLength + 1))%Z
    ∧ (∀ sentence, split sentenceBreak content !! n = Some sentence →
       (maxLength
        < len (extractKeySummary content maxLength) + len sentence)%Z).
Proof.
  unfold extractKeySummary.
  destruct (keySummaryFrom_prefix (split sentenceBreak content) [] maxLength)
    as (n & Hn & E & Hlen & Hstop).
  change (joinSentences []) with (@nil N) in E. cbn [app] in *.
  exists n. rewrite E. repeat split; auto.
  destruct Hlen as [->|Hlen]; [simpl; unfold len; simpl; lia|lia].
Qed.

End ContextProperties.

Module WholeProperties.
Import Rag JsFacts RagProperties ContextProperties.

Lemma tokensOf_take (chunks : list ChunkedContent) (n : nat) :
  Forall (fun c => (0 ≤ tokens (metadata c))%Z) chunks →
  (0 ≤ tokensOf (take n chunks) ≤ tokensOf chunks)%Z.
Proof.
  intros Hpos. revert n.
  induction Hpos as [|c l Hc Hl IH]; intros n.
  - rewrite take_nil. simpl. lia.
  - destruct n as [|n]; cbn [take tokensOf foldr].
    + fold (tokensOf l). specialize (IH 0%nat). rewrite take_0 in IH.
      simpl in IH. lia.
    + fold (tokensOf l) (tokensOf (take n l)). specialize (IH n). lia.
Qed.

(** X25.  When no chunk has a negative number of tokens and all the
    chunks together are within [maxTokens], the context holds the entry
    of every chunk. *)
Theorem formatContextForLLM_whole (chunks : list ChunkedContent)
  (maxTokens : Z) :
  Forall (fun c => (0 ≤ tokens (metadata c))%Z) chunks →
  (tokensOf chunks ≤ maxTokens)%Z →
  formatContextForLLM chunks maxTokens = concat (map contextEntry chunks).
Proof.
  intros Hpos Hfit.
  destruct (formatContextFrom_prefix chunks maxTokens [] 0)
    as (n & Hn & E & _ & Hstop).
  unfold formatContextForLLM. rewrite E. cbn [app].
  destruct (decide (n < length chunks)%nat) as [Hlt|Hge].
  - specialize (Hstop Hlt).
    pose proof (tokensOf_take chunks (S n) Hpos). lia.
  - by rewrite take_ge by lia.
Qed.

Lemma joinSentences_app_le (l1 l2 : list jsstring) :
  (len (joinSentences l1) ≤ len (joinSentences (l1 ++ l2)))%Z.
Proof.
  induction l2 as [|s l2 IH] using rev_ind.
  - rewrite app_nil_r. lia.
  - rewrite app_assoc, joinSentences_snoc, !len_app.
    pose proof (len_nonneg s).
    pose proof (len_nonneg
                  (if truthy (joinSentences (l1 ++ l2)) then str " " else [])).
    lia.
Qed.

(** X26.  A content whose sentences, joined with single spaces, are
    within [maxLength] is summarised by all of them. *)
Theorem extractKeySummary_whole (content : jsstring) (maxLength : Z) :
  (len (joinSentences (split sentenceBreak content)) ≤ maxLength)%Z →
  extractKeySummary content maxLength
  = joinSentences (split sentenceBreak content).
Proof.
  intros Hfit. unfold extractKeySummary.
  destruct (keySummaryFrom_prefix (split sentenceBreak content) [] maxLength)
    as (n & Hn & E & _ & Hstop).
  change (joinSentences []) with (@nil N) in E. cbn [app] in *. rewrite E.
  set (sentences := split sentenceBreak content) in *.
  destruct (sentences !! n) as [s|] eqn:Hs.
  - exfalso. specialize (Hstop s eq_refl).
    pose proof (take_drop_middle sentences n s Hs) as Hsplit.
    pose proof (joinSentences_app_le (take n sentences ++ [s])
                  (drop (S n) sentences)) as Hle.
    rewrite <- app_assoc in Hle. cbn [app] in Hle. rewrite Hsplit in Hle.
    rewrite joinSentences_snoc, !len_app in Hle.
    pose proof (len_nonneg
                  (if truthy (joinSentences (take n sentences))
                   then str " " else [])).
    lia.
  - apply lookup_ge_None in Hs. by rewrite take_ge by lia.
Qed.

Definition fourSentences : jsstring :=
  str "Aaa bbb. Ccc bbb bbb. Ddd. Eee bbb.".

Lemma formatContextForLLM_whole_witness :
  formatContextForLLM
    (chunkContent fourSentences 12 0 (str "art1") (str "T")) 11
  = concat (map contextEntry
              (chunkContent fourSentences 12 0 (str "art1") (str "T"))).
Proof.
  apply (formatContextForLLM_whole
           (chunkContent fourSentences 12 0 (str "art1") (str "T")) 11).
  - vm_compute. repeat constructor; discriminate.
  - vm_compute. discriminate.
Defined.

Lemma extractKeySummary_whole_witness :
  extractKeySummary fourSentences 35
  = joinSentences (split sentenceBreak fourSentences).
Proof.
  apply (extractKeySummary_whole fourSentences 35).
  vm_compute. discriminate.
Defined.

End WholeProperties.

Module NoMatch.
Import Rag.

Section Scorer.
Context `{CaseMapping}.

Lemma countTerms_absent (content contentLower : jsstring) (matchCount : nat)
  (queryTerms : list jsstring) :
  Forall (fun term => includes contentLower term = false) queryTerms →
  countTerms content contentLower matchCount queryTerms = Returns matchCount.
Proof.
  induction 1 as [|term l Hterm Hl IH]; [done|].
  cbn [countTerms]. unfold countTerm. rewrite Hterm. exact IH.
Qed.

(** X27.  When no term of the lower-cased query occurs in the lower-cased
    content, the scorer returns 0, whatever the terms are made of: no
    pattern is built. *)
Theorem calculateSimilarityScore_no_match (query content : jsstring) :
  Forall (fun term => includes (toLowerCase content) term = false)
         (split whitespace (toLowerCase query)) →
  ∃ score, calculateSimilarityScore query content = Returns score
           ∧ (score == 0)%Q.
Proof.
  intros Habsent. unfold calculateSimilarityScore.
  rewrite countTerms_absent by done. cbn [mbind outcome_bind].
  eexists. split; [reflexivity|]. unfold Qdiv. apply Qmult_0_l.
Qed.

End Scorer.

Lemma calculateSimilarityScore_no_match_witness :
  let H : CaseMapping := asciiToLowerCase in
  ∃ score,
    calculateSimilarityScore (str "Zebra c++ [") (str "Alpha (beta) gamma.")
    = Returns score
    ∧ (score == 0)%Q.
Proof.
  intros H.
  apply (calculateSimilarityScore_no_match (str "Zebra c++ [")
           (str "Alpha (beta) gamma.")).
  vm_compute. repeat constructor.
Defined.

End NoMatch.

Module RetrievalProperties.
Import Rag JsFacts RagProperties.

Lemma join_snoc (separator : jsstring) (items : list jsstring)
  (item : jsstring) :
  join separator (items ++ [item])
  = match items with
    | [] => item
    | _ => join separator items ++ separator ++ item
    end.
Proof.
  induction items as [|x items IH]; [done|].
  destruct items as [|y items]; [done|].
  change (join separator ((x :: y :: items) ++ [item]))
    with (x ++ separator ++ join separator ((y :: items) ++ [item])).
  rewrite IH.
  change (join separator (x :: y :: items))
    with (x ++ separator ++ join separator (y :: items)).
  by rewrite <- !app_assoc.
Qed.

Lemma truthy_nonempty (s : jsstring) : truthy s = true ↔ s ≠ [].
Proof. by destruct s. Qed.

(** The chunks pushed so far and the chunk being gathered, as one list. *)
Definition gathered (st : list jsstring * jsstring) : list jsstring :=
  fst st ++ (if truthy (snd st) then [snd st] else []).

Lemma gather_gathered (maxChunkSize : Z) (paragraphs : list jsstring) :
  gather maxChunkSize paragraphs
  = gathered (fold_left (gatherStep maxChunkSize) paragraphs ([], [])).
Proof.
  unfold gather, gathered.
  destruct (fold_left _ _ _) as [chunks currentChunk]. simpl.
  destruct (truthy currentChunk); [done|by rewrite app_nil_r].
Qed.

Lemma gatherStep_nonempty (maxChunkSize : Z) (st : list jsstring * jsstring)
  (paragraph : jsstring) :
  Forall (fun c => c ≠ []) (fst st) →
  Forall (fun c => c ≠ []) (fst (gatherStep maxChunkSize st paragraph)).
Proof.
  destruct st as [chunks currentChunk]. simpl. intros Hc.
  destruct (_ >? _)%Z; simpl; [|done].
  destruct (truthy currentChunk) eqn:Ht; [|done].
  apply Forall_app. split; [done|].
  apply Forall_singleton. by apply truthy_nonempty.
Qed.

Lemma gather_nonempty (maxChunkSize : Z) (paragraphs : list jsstring) :
  Forall (fun c => c ≠ []) (gather maxChunkSize paragraphs).
Proof.
  rewrite gather_gathered.
  assert (Forall (fun c => c ≠ [])
            (fst (fold_left (gatherStep maxChunkSize) paragraphs ([], []))))
    as Hfst.
  { apply (fold_left_invariant (gatherStep maxChunkSize)
             (fun _ st => Forall (fun c => c ≠ []) (fst st))).
    - constructor.
    - intros l st x. apply gatherStep_nonempty. }
  unfold gathered. apply Forall_app. split; [done|].
  destruct (truthy _) eqn:Ht; [|constructor].
  apply Forall_singleton. by apply truthy_nonempty.
Qed.

(** What the second loop keeps: no chunk is empty, and every chunk after
    the first has at least [minChunkSize] code units. *)
Definition merged (minChunkSize : Z) (optimizedChunks : list jsstring)
  : Prop :=
  Forall (fun c => c ≠ []) optimizedChunks
  ∧ Forall (fun c => (minChunkSize ≤ len c)%Z) (tail optimizedChunks).

Lemma tail_snoc {A} (l : list A) (x : A) :
  l ≠ [] → tail (l ++ [x]) = tail l ++ [x].
Proof. by destruct l. Qed.

Lemma mergeStep_merged (minChunkSize : Z) (optimizedChunks : list jsstring)
  (chunk : jsstring) :
  chunk ≠ [] →
  merged minChunkSize optimizedChunks →
  merged minChunkSize (mergeStep minChunkSize optimizedChunks chunk).
Proof.
  intros Hchunk [Hne Hmin]. unfold mergeStep.
  destruct (rev optimizedChunks) as [|lastChunk before] eqn:Hrev.
  - apply (f_equal (@rev _)) in Hrev. rewrite rev_involutive in Hrev.
    subst. split; [by apply Forall_singleton|constructor].
  - apply (f_equal (@rev _)) in Hrev. rewrite rev_involutive in Hrev.
    simpl in Hrev. subst optimizedChunks.
    apply Forall_app in Hne as [Hbefore Hlast].
    apply Forall_inv in Hlast.
    destruct (len chunk <? minChunkSize)%Z eqn:Hshort.
    + split.
      * apply Forall_app. split; [done|]. apply Forall_singleton.
        by destruct lastChunk.
      * destruct (rev before) as [|first others] eqn:Hb; [constructor|].
        simpl in *. apply Forall_app in Hmin as [Hothers Hl].
        apply Forall_inv in Hl.
        apply Forall_app. split; [done|]. apply Forall_singleton.
        rewrite len_app. pose proof (len_nonneg (blankLine ++ chunk)).
        unfold blankLine in *. cbn [app] in *. lia.
    + apply Z.ltb_ge in Hshort. split.
      * apply Forall_app. split; [|by apply Forall_singleton].
        apply Forall_app. split; [done|by apply Forall_singleton].
      * rewrite tail_snoc by (by destruct (rev before)).
        apply Forall_app. split; [done|by apply Forall_singleton].
Qed.

Lemma fold_mergeStep_merged (minChunkSize : Z) (chunks : list jsstring) :
  Forall (fun c => c ≠ []) chunks →
  merged minChunkSize (fold_left (mergeStep minChunkSize) chunks []).
Proof.
  intros Hchunks.
  assert (∀ optimizedChunks,
            merged minChunkSize optimizedChunks →
            merged minChunkSize
              (fold_left (mergeStep minChunkSize) chunks optimizedChunks))
    as Hfold.
  { induction Hchunks as [|c chunks Hc Hchunks IH]; [done|].
    intros optimizedChunks Hm. simpl. by apply IH, mergeStep_merged. }
  apply Hfold. split; constructor.
Qed.

(** X7.  No chunk returned is empty, and every chunk but the first is at
    least [minChunkSize] long (512 when the option is absent). *)
Theorem optimizeForRetrieval_sizes (content : jsstring)
  (options : RetrievalOptions) :
  Forall (fun c => c ≠ []) (optimizeForRetrieval content options)
  ∧ Forall (fun c => (default 512 (minChunkSize options) ≤ len c)%Z)
      (tail (optimizeForRetrieval content options)).
Proof. apply fold_mergeStep_merged, gather_nonempty. Qed.

(** *** The text is kept *)

Lemma mergeStep_join (minChunkSize : Z) (optimizedChunks : list jsstring)
  (chunk : jsstring) :
  join blankLine (mergeStep minChunkSize optimizedChunks chunk)
  = join blankLine (optimizedChunks ++ [chunk]).
Proof.
  unfold mergeStep.
  destruct (rev optimizedChunks) as [|lastChunk before] eqn:Hrev; [done|].
  destruct (len chunk <? minChunkSize)%Z; [|done].
  apply (f_equal (@rev _)) in Hrev. rewrite rev_involutive in Hrev.
  simpl in Hrev. subst optimizedChunks.
  generalize (rev before) as l. intros l.
  rewrite (join_snoc _ (l ++ [lastChunk])), !join_snoc.
  destruct l as [|first others]; [done|].
  cbn [app]. by rewrite <- !app_assoc.
Qed.

Lemma join_app_congruence (l1 l2 l : list jsstring) :
  join blankLine l1 = join blankLine l2 → (l1 = [] ↔ l2 = []) →
  join blankLine (l1 ++ l) = join blankLine (l2 ++ l).
Proof.
  revert l1 l2.
  induction l as [|x l IHl] using rev_ind; intros l1 l2 E Hnil.
  - by rewrite !app_nil_r.
  - rewrite !app_assoc, !join_snoc.
    rewrite (IHl l1 l2 E Hnil).
    destruct (l1 ++ l) eqn:E1, (l2 ++ l) eqn:E2; try done.
    + apply app_eq_nil in E1 as [-> ->]. simpl in E2.
      destruct Hnil as [Hnil _]. by rewrite Hnil in E2.
    + apply app_eq_nil in E2 as [-> ->]. simpl in E1.
      destruct Hnil as [_ Hnil]. by rewrite Hnil in E1.
Qed.

Lemma mergeStep_nil (minChunkSize : Z) (optimizedChunks : list jsstring)
  (chunk : jsstring) :
  mergeStep minChunkSize optimizedChunks chunk = []
  ↔ optimizedChunks ++ [chunk] = [].
Proof.
  unfold mergeStep. destruct (rev optimizedChunks) as [|lastChunk before].
  - done.
  - destruct (_ <? _)%Z; [|done].
    split; intros E; [by destruct (rev before)|by destruct optimizedChunks].
Qed.

Lemma fold_mergeStep_join_from (minChunkSize : Z)
  (chunks optimizedChunks : list jsstring) :
  join blankLine (fold_left (mergeStep minChunkSize) chunks optimizedChunks)
  = join blankLine (optimizedChunks ++ chunks).
Proof.
  revert optimizedChunks.
  induction chunks as [|c chunks IH]; intros optimizedChunks.
  - simpl. by rewrite app_nil_r.
  - simpl. rewrite IH.
    rewrite (join_app_congruence _ (optimizedChunks ++ [c]) chunks).
    + by rewrite <- app_assoc.
    + apply mergeStep_join.
    + apply mergeStep_nil.
Qed.

Lemma fold_mergeStep_join (minChunkSize : Z) (chunks : list jsstring) :
  join blankLine (fold_left (mergeStep minChunkSize) chunks [])
  = join blankLine chunks.
Proof. apply fold_mergeStep_join_from. Qed.

Lemma gatherStep_join (maxChunkSize : Z) (st : list jsstring * jsstring)
  (paragraph : jsstring) (paragraphs : list jsstring) :
  paragraph ≠ [] →
  (snd st = [] → fst st = [] ∧ paragraphs = []) →
  join blankLine (gathered st) = join blankLine paragraphs →
  let st' := gatherStep maxChunkSize st paragraph in
  snd st' ≠ []
  ∧ join blankLine (gathered st') = join blankLine (paragraphs ++ [paragraph]).
Proof.
  destruct st as [chunks currentChunk]. unfold gathered. cbn [fst snd].
  intros Hp Hempty E. unfold gatherStep.
  assert (truthy paragraph = true) as Htp by by apply truthy_nonempty.
  destruct (truthy currentChunk) eqn:Ht.
  - clear Hempty. assert (currentChunk ≠ []) as Hcur by by apply truthy_nonempty.
    assert (paragraphs ≠ []) as Hps.
    { intros ->. rewrite join_snoc in E. simpl in E.
      destruct chunks as [|x chunks]; [done|].
      apply (f_equal (@length _)) in E. rewrite !length_app in E.
      simpl in E. lia. }
    destruct (_ >? _)%Z; cbn [fst snd]; rewrite ?Ht, ?Htp.
    + split; [done|].
      rewrite (join_snoc _ (chunks ++ [currentChunk])), (join_snoc _ paragraphs).
      rewrite E.
      destruct (chunks ++ [currentChunk]) eqn:E1; [by destruct chunks|].
      by destruct paragraphs.
    + split; [by destruct currentChunk|].
      assert (truthy (currentChunk ++ blankLine ++ paragraph) = true) as ->
        by by destruct currentChunk.
      rewrite !join_snoc. rewrite join_snoc in E. rewrite <- E.
      destruct paragraphs; [done|].
      destruct chunks; [done|]. by rewrite <- !app_assoc.
  - destruct currentChunk; [|done]. destruct Hempty as [-> ->]; [done|].
    cbn [app]. destruct (_ >? _)%Z; cbn [fst snd app]; by rewrite Htp.
Qed.

Lemma gather_join (maxChunkSize : Z) (paragraphs : list jsstring) :
  Forall (fun p => p ≠ []) paragraphs →
  join blankLine (gather maxChunkSize paragraphs)
  = join blankLine paragraphs.
Proof.
  intros Hp. rewrite gather_gathered.
  assert (∀ st done,
            (snd st = [] → fst st = [] ∧ done = []) →
            join blankLine (gathered st) = join blankLine done →
            join blankLine
              (gathered (fold_left (gatherStep maxChunkSize) paragraphs st))
            = join blankLine (done ++ paragraphs)) as Hfold.
  { induction Hp as [|p paragraphs Hp Hps IH]; intros st done Hempty E.
    - simpl. by rewrite app_nil_r.
    - simpl.
      destruct (gatherStep_join maxChunkSize st p done Hp Hempty E)
        as [Hcur E'].
      rewrite (IH _ (done ++ [p])); [by rewrite <- app_assoc| |done].
      intros Hnil. by destruct Hcur. }
  apply (Hfold ([], []) []); [done|done].
Qed.

(** X8.  When no paragraph is empty, joining the chunks returned with blank
    lines gives the paragraphs joined with blank lines: no text is lost
    or repeated. *)
Theorem optimizeForRetrieval_keeps_text (content : jsstring)
  (options : RetrievalOptions) :
  Forall (fun p => p ≠ []) (split paragraphBreak content) →
  join blankLine (optimizeForRetrieval content options)
  = join blankLine (split paragraphBreak content).
Proof.
  intros Hp. unfold optimizeForRetrieval.
  by rewrite fold_mergeStep_join, gather_join.
Qed.

Definition threeParagraphs : jsstring :=
  str "aaaa" ++ blankLine ++ str "bb" ++ blankLine ++ lineFeed
  ++ str "cccccc" ++ blankLine ++ str "d".

Lemma optimizeForRetrieval_keeps_text_witness :
  let options :=
    {| minChunkSize := Some 3%Z; maxChunkSize := Some 6%Z;
       overlap := None; contextWindow := None |} in
  join blankLine (optimizeForRetrieval threeParagraphs options)
  = join blankLine (split paragraphBreak threeParagraphs).
Proof.
  intros options.
  apply (optimizeForRetrieval_keeps_text threeParagraphs options).
  vm_compute. repeat (constructor; [discriminate|]). constructor.
Defined.

End RetrievalProperties.

(** ** lib/crossReference.ts *)

Module SimilarityProperties.
Import CrossReference JsFacts.

Lemma ratio_bounds (i u : Z) :
  (0 ≤ i ≤ u)%Z → (0 < u)%Z →
  (0 <= inject_Z i / inject_Z u)%Q ∧ (inject_Z i / inject_Z u <= 1)%Q.
Proof.
  intros [Hi Hiu] Hu.
  assert (0 < inject_Z u)%Q
    by (change 0%Q with (inject_Z 0); by rewrite <- Zlt_Qlt).
  split.
  - apply Qle_shift_div_l; [done|]. rewrite Qmult_0_l.
    change 0%Q with (inject_Z 0). by rewrite <- Zle_Qle.
  - apply Qle_shift_div_r; [done|]. rewrite Qmult_1_l. by rewrite <- Zle_Qle.
Qed.

Lemma ratio_same (u : Z) : (0 < u)%Z → (inject_Z u / inject_Z u == 1)%Q.
Proof.
  intros Hu. apply Qmult_inv_r. intros E.
  rewrite (Zlt_Qlt 0 u), E in Hu. by apply Qlt_irrefl in Hu.
Qed.

(** The loop that counts the keywords of the first set that the second
    has counts their intersection. *)
Lemma count_common (A B : gset jsstring) :
  length (List.filter (fun k => bool_decide (k ∈ B)) (elements A))
  = size (A ∩ B).
Proof.
  unfold size, set_size. simpl. apply Permutation_length.
  apply NoDup_Permutation.
  - apply NoDup_ListNoDup, List.NoDup_filter, NoDup_ListNoDup, NoDup_elements.
  - apply NoDup_elements.
  - intros k. rewrite list_elem_of_In, filter_In, <- list_elem_of_In.
    rewrite bool_decide_eq_true, !elem_of_elements. set_solver.
Qed.

Lemma size_union_intersection (A B : gset jsstring) :
  (size (A ∪ B) + size (A ∩ B) = size A + size B)%nat.
Proof.
  rewrite size_union_alt, size_difference_alt.
  assert (size (B ∩ A) ≤ size B)%nat by (apply subseteq_size; set_solver).
  replace (A ∩ B) with (B ∩ A) by set_solver. lia.
Qed.

Lemma size_list_to_set_le (l : list jsstring) :
  (size (list_to_set l : gset jsstring) ≤ length l)%nat.
Proof.
  unfold size, set_size. simpl. apply submseteq_length, NoDup_submseteq.
  - apply NoDup_elements.
  - intros k. rewrite elem_of_elements. set_solver.
Qed.

Section Similarity.
Context `{CaseMapping}.

(** The set of the ten keywords of a content that [calculateSimilarity]
    compares. *)
Definition keywordSet (content : jsstring) : gset jsstring :=
  list_to_set (extractKeywords content 10).

Lemma keywordSet_size (content : jsstring) : (size (keywordSet content) ≤ 10)%nat.
Proof.
  unfold keywordSet. etransitivity; [apply size_list_to_set_le|].
  unfold extractKeywords. rewrite length_map, length_take. lia.
Qed.

Lemma calculateSimilarity_ratio (content1 content2 : jsstring) :
  calculateSimilarity content1 content2
  = if (Z.of_nat (size (keywordSet content1 ∪ keywordSet content2)) =? 0)%Z
    then 0%Q
    else (inject_Z (Z.of_nat (size (keywordSet content1 ∩ keywordSet content2)))
          / inject_Z (Z.of_nat (size (keywordSet content1 ∪ keywordSet content2))))%Q.
Proof.
  unfold calculateSimilarity. fold (keywordSet content1) (keywordSet content2).
  rewrite count_common.
  pose proof (size_union_intersection (keywordSet content1) (keywordSet content2)).
  replace (Z.of_nat (size (keywordSet content1)) + Z.of_nat (size (keywordSet content2))
           - Z.of_nat (size (keywordSet content1 ∩ keywordSet content2)))%Z
    with (Z.of_nat (size (keywordSet content1 ∪ keywordSet content2))) by lia.
  done.
Qed.

(** C8.  [calculateSimilarity] is the Jaccard similarity of the keyword
    sets of the two contents, sets of at most ten keywords: the size of
    the intersection over the size of the union, which is the sum of the
    sizes less the intersection, and 0 when the union is empty.  It lies
    between 0 and 1, it is 1 for a content with itself when the content
    has a keyword, and 0 for contents that share no keyword. *)
Theorem calculateSimilarity_jaccard (content1 content2 : jsstring) :
  ((size (keywordSet content1) ≤ 10)%nat ∧ (size (keywordSet content2) ≤ 10)%nat)
  ∧ (size (keywordSet content1) + size (keywordSet content2)
     - size (keywordSet content1 ∩ keywordSet content2)
     = size (keywordSet content1 ∪ keywordSet content2))%nat
  ∧ calculateSimilarity content1 content2
    = (if decide (keywordSet content1 ∪ keywordSet content2 = ∅) then 0%Q
       else (inject_Z (Z.of_nat (size (keywordSet content1 ∩ keywordSet content2)))
             / inject_Z (Z.of_nat (size (keywordSet content1)
                                   + size (keywordSet content2)
                                   - size (keywordSet content1 ∩ keywordSet content2))))%Q)
  ∧ ((0 <= calculateSimilarity content1 content2)%Q
     ∧ (calculateSimilarity content1 content2 <= 1)%Q)
  ∧ (keywordSet content1 ≠ ∅ → (calculateSimilarity content1 content1 == 1)%Q)
  ∧ (keywordSet content1 ∩ keywordSet content2 = ∅ →
     (calculateSimilarity content1 content2 == 0)%Q).
Proof.
  set (A := keywordSet content1). set (B := keywordSet content2).
  pose proof (size_union_intersection A B) as Hsize.
  assert (Hle : (size (A ∩ B) ≤ size (A ∪ B))%nat)
    by (apply subseteq_size; set_solver).
  assert (Hzero : ∀ X : gset jsstring,
            (Z.of_nat (size X) =? 0)%Z = true ↔ X = ∅).
  { intros X. rewrite Z.eqb_eq. split.
    - intros. apply leibniz_equiv, size_empty_iff. lia.
    - intros ->. by rewrite size_empty. }
  split; [split; apply keywordSet_size|].
  split; [lia|]. split; [|split; [|split]].
  - rewrite calculateSimilarity_ratio. fold A B.
    replace (size A + size B - size (A ∩ B))%nat with (size (A ∪ B)) by lia.
    destruct (decide (A ∪ B = ∅)) as [E|E].
    + by rewrite (proj2 (Hzero _) E).
    + destruct (Z.of_nat (size (A ∪ B)) =? 0)%Z eqn:Hz; [|done].
      by apply Hzero in Hz.
  - rewrite calculateSimilarity_ratio. fold A B.
    destruct (Z.of_nat (size (A ∪ B)) =? 0)%Z eqn:Hz.
    + split; [apply Qle_refl|done].
    + apply ratio_bounds; [lia|]. apply Z.eqb_neq in Hz. lia.
  - intros HA. rewrite calculateSimilarity_ratio. fold A.
    assert (A ∩ A = A) as -> by (clear; set_solver).
    assert (A ∪ A = A) as -> by (clear; set_solver).
    destruct (Z.of_nat (size A) =? 0)%Z eqn:Hz.
    + by apply Hzero in Hz.
    + apply ratio_same. apply Z.eqb_neq in Hz. lia.
  - intros HAB. rewrite calculateSimilarity_ratio. fold A B. rewrite HAB.
    destruct (Z.of_nat (size (A ∪ B)) =? 0)%Z; [done|].
    rewrite size_empty. unfold Qdiv. simpl. apply Qmult_0_l.
Qed.

End Similarity.

(** C8 at two concrete contents that share two of their five keywords. *)
Lemma calculateSimilarity_jaccard_witness :
  let H : CaseMapping := asciiToLowerCase in
  let content1 := str "alpha alpha bravo gamma delta" in
  let content2 := str "Alpha, gamma; omega." in
  (calculateSimilarity content1 content1 == 1)%Q
  ∧ (calculateSimilarity content1 (str "none of these") == 0)%Q
  ∧ calculateSimilarity content1 content2 = (2 # 5)%Q.
Proof.
  intros H content1 content2.
  pose proof (calculateSimilarity_jaccard content1 content2)
    as (_ & _ & _ & _ & Hself & _).
  pose proof (calculateSimilarity_jaccard content1 (str "none of these"))
    as (_ & _ & _ & _ & _ & Hnone).
  split; [|split].
  - apply Hself.
    intros E. apply (f_equal size) in E. vm_compute in E. discriminate E.
  - apply Hnone.
    apply leibniz_equiv, size_empty_iff. vm_compute. reflexivity.
  - vm_compute. reflexivity.
Defined.

End SimilarityProperties.

Module RecommendationProperties.
Import CrossReference.

(** A connection of the node stored under [u] points to [v]. *)
Definition edge (graph : gmap jsstring KnowledgeGraphNode) (u v : jsstring)
  : Prop :=
  ∃ node c, graph !! u = Some node ∧ c ∈ connections node ∧ nodeId c = v.

(** [v] is reached from [u] along one connection or more, of any type. *)
Definition reachable (graph : gmap jsstring KnowledgeGraphNode)
  : jsstring → jsstring → Prop :=
  tc (edge graph).

Lemma edge_target (graph : gmap jsstring KnowledgeGraphNode) (u v : jsstring) :
  edge graph u v → v ∈ targets graph.
Proof.
  intros (node & c & Hu & Hc & <-). unfold targets.
  apply elem_of_union_list.
  exists (list_to_set (map nodeId (connections node))). split.
  - apply list_elem_of_In, in_map_iff. exists (u, node). split; [done|].
    by apply list_elem_of_In, elem_of_map_to_list.
  - apply elem_of_list_to_set, list_elem_of_In, in_map.
    by apply list_elem_of_In.
Qed.

Section Traversal.
Variables (graph : gmap jsstring KnowledgeGraphNode) (start : jsstring)
          (limit : nat).

(** What holds of the variables of the traversal at each point. *)
Record sound (st : traversal) : Prop := {
  sound_distinct : NoDup (recommendations st).*1;
  sound_entries :
    Forall (fun e => graph !! e.1 = Some e.2 ∧ e.1 ∈ visited st
                     ∧ e.1 ≠ start ∧ reachable graph start e.1)
           (recommendations st);
  sound_queue :
    Forall (fun k => k = start ∨ reachable graph start k) (queue st);
  sound_start : start ∈ visited st
}.

(** The turns the loop can still make. *)
Definition budget (st : traversal) : nat :=
  length (queue st) + size (targets graph ∖ visited st).

Lemma visit_sound (st : traversal) (u : jsstring) (c : Connection) :
  sound st → (u = start ∨ reachable graph start u) →
  edge graph u (nodeId c) →
  sound (visit graph limit st c).
Proof.
  intros [Hd He Hq Hs] Hu Hedge. unfold visit.
  destruct (bool_decide (nodeId c ∈ visited st)) eqn:Hv; [by split|].
  apply bool_decide_eq_false in Hv.
  assert (Hr : reachable graph start (nodeId c)).
  { destruct Hu as [->|Hu]; [by apply tc_once|].
    eapply tc_r; [exact Hu|exact Hedge]. }
  assert (Hfresh : nodeId c ∉ (recommendations st).*1).
  { intros Hin. apply list_elem_of_fmap in Hin as (e & Heq & Hin).
    rewrite Forall_forall in He. apply He in Hin.
    rewrite Heq in Hv. tauto. }
  assert (He' : Forall (fun e => graph !! e.1 = Some e.2
                         ∧ e.1 ∈ visited st ∪ {[nodeId c]}
                         ∧ e.1 ≠ start
                         ∧ reachable graph start e.1) (recommendations st)).
  { eapply Forall_impl; [exact He|]. cbv beta. intros e (? & ? & ? & ?).
    repeat split; try done. set_solver. }
  split; cbn [recommendations queue visited].
  - destruct (graph !! nodeId c); [|done].
    rewrite bool_decide_eq_false_2 by done.
    rewrite fmap_app. apply NoDup_app. repeat split; try done.
    + intros x Hx Hx'. apply list_elem_of_singleton in Hx'. by subst.
    + apply NoDup_singleton.
  - destruct (graph !! nodeId c) as [n|] eqn:Hn; [|done].
    rewrite bool_decide_eq_false_2 by done.
    apply Forall_app. split; [done|]. apply Forall_singleton. simpl.
    split; [done|]. split; [set_solver|]. split; [|done].
    intros E. rewrite E in Hv. done.
  - destruct (length (queue st) <? limit * 2)%nat; [|done].
    apply Forall_app. split; [done|]. apply Forall_singleton. by right.
  - set_solver.
Qed.

Lemma visit_budget (st : traversal) (c : Connection) :
  nodeId c ∈ targets graph → (budget (visit graph limit st c) ≤ budget st)%nat.
Proof.
  intros Ht. unfold visit, budget.
  destruct (bool_decide (nodeId c ∈ visited st)) eqn:Hv; [done|].
  apply bool_decide_eq_false in Hv. cbn [queue visited].
  assert (Hsplit : targets graph ∖ visited st
                   = {[nodeId c]} ∪ targets graph ∖ (visited st ∪ {[nodeId c]})).
  { apply set_eq. intros x. rewrite elem_of_union, !elem_of_difference,
      elem_of_union, elem_of_singleton.
    destruct (decide (x = nodeId c)) as [->|]; tauto. }
  rewrite Hsplit.
  rewrite (size_union ({[nodeId c]} : gset jsstring)) by set_solver.
  rewrite size_singleton.
  destruct (length (queue st) <? limit * 2)%nat; rewrite ?length_app; simpl; lia.
Qed.

Lemma fold_visit (u : jsstring) (cs : list Connection) (st : traversal) :
  (u = start ∨ reachable graph start u) →
  Forall (fun c => edge graph u (nodeId c)) cs →
  sound st →
  sound (fold_left (visit graph limit) cs st)
  ∧ (budget (fold_left (visit graph limit) cs st) ≤ budget st)%nat.
Proof.
  intros Hu. revert st. induction cs as [|c cs IH]; intros st Hcs Hst; simpl.
  - by split.
  - apply Forall_cons in Hcs as [Hc Hcs].
    destruct (IH (visit graph limit st c) Hcs) as [Hs Hb].
    + by apply (visit_sound st u c).
    + split; [done|].
      pose proof (visit_budget st c (edge_target _ _ _ Hc)). lia.
Qed.

Lemma traverse_done (turns : nat) (st : traversal) :
  queue st = [] → traverse turns graph limit st = Some st.
Proof. intros Hq. destruct turns; simpl; by rewrite Hq. Qed.

(** The bound on the turns is never reached. *)
Lemma traverse_total (turns : nat) (st : traversal) :
  (budget st ≤ turns)%nat → sound st →
  ∃ st', traverse turns graph limit st = Some st' ∧ sound st'.
Proof.
  revert st. induction turns as [|turns IH]; intros st Hb Hst.
  - exists st. split; [|done]. apply traverse_done.
    unfold budget in Hb. destruct (queue st); [done|simpl in Hb; lia].
  - simpl. destruct (queue st) as [|k rest] eqn:Hq; [by exists st|].
    destruct (length (recommendations st) <? limit)%nat; [|by exists st].
    set (st1 := {| recommendations := recommendations st; queue := rest;
                   visited := visited st |}).
    assert (Hst1 : sound st1).
    { destruct Hst as [Hd He Hqs Hs]. split; try done.
      cbn [queue st1]. rewrite Hq in Hqs. by apply Forall_cons in Hqs as [_ ?]. }
    assert (Hb1 : (budget st1 ≤ turns)%nat).
    { unfold budget in *. rewrite Hq in Hb. simpl in *. lia. }
    assert (Hk : k = start ∨ reachable graph start k).
    { destruct Hst as [_ _ Hqs _]. rewrite Hq in Hqs.
      by apply Forall_cons in Hqs as [? _]. }
    destruct (graph !! k) as [node|] eqn:Hnode; [|by apply IH].
    destruct (fold_visit k (connections node) st1 Hk) as [Hs Hb2]; [|done|].
    + apply Forall_forall. intros c Hc. by exists node, c.
    + apply IH; [lia|done].
Qed.

End Traversal.


End RecommendationProperties.

Module GraphProperties.
Import CrossReference SortFacts.

Section Related.
Context `{CaseMapping}.

(** [findRelatedArticles] never returns the current article: the
    connections of type [related] are to other ids. *)
Lemma findRelatedArticles_not_self (currentArticle : Article)
  (allArticles : list Article) (limit : nat) :
  Forall (fun r => related_id r ≠ id currentArticle)
         (findRelatedArticles currentArticle allArticles limit).
Proof.
  unfold findRelatedArticles. apply Forall_map, Forall_take.
  eapply Permutation_Forall; [symmetry; apply (sort_perm snd)|].
  apply Forall_forall. intros e He. cbn [related_id].
  apply list_elem_of_In, filter_In in He as [He _].
  apply in_map_iff in He as (a & <- & Ha). cbn [fst].
  apply filter_In in Ha as [_ Ha]. apply negb_true_iff in Ha.
  unfold jsstring_eqb in Ha. by apply bool_decide_eq_false in Ha.
Qed.

End Related.

(** The graph of two articles of which the first refers to the second:
    the reference is an edge of the first node only. *)
Example buildKnowledgeGraph_reference :
  let H : CaseMapping := asciiToLowerCase in
  let graph :=
    buildKnowledgeGraph
      [{| id := str "a"; title := str "Alpha"; slug := str "alpha";
          description := None; content := str "See [[Beta]]." |};
       {| id := str "b"; title := str "Beta"; slug := str "beta";
          description := None; content := str "no refs" |}] 10 in
  connections <$> graph !! str "a"
  = Some [{| nodeId := str "b"; type := references |}]
  ∧ connections <$> graph !! str "b" = Some [].
Proof. vm_compute. split; reflexivity. Qed.

End GraphProperties.

Module PushFacts.

(** A list used as a set: a value is pushed when it is not included. *)
Lemma fold_push_new {A B} `{EqDecision B} (f : A → B) (xs : list A)
  (acc : list B) :
  NoDup acc →
  NoDup (fold_left (fun acc x =>
                      if bool_decide (f x ∈ acc) then acc else acc ++ [f x])
                   xs acc)
  ∧ ∀ y, y ∈ fold_left (fun acc x =>
                          if bool_decide (f x ∈ acc) then acc
                          else acc ++ [f x])
                       xs acc
         ↔ y ∈ acc ∨ ∃ x, x ∈ xs ∧ y = f x.
Proof.
  revert acc. induction xs as [|x xs IH]; intros acc Hacc.
  - simpl. split; [done|]. intros y. split; [by left|].
    intros [?|(x & Hx & _)]; [done|]. by apply elem_of_nil in Hx.
  - cbn [fold_left]. destruct (bool_decide (f x ∈ acc)) eqn:Hin.
    + apply bool_decide_eq_true in Hin.
      destruct (IH acc Hacc) as [Hnd Hmem]. split; [done|].
      intros y. rewrite Hmem. split.
      * intros [?|(x' & Hx' & ->)]; [by left|].
        right. exists x'. split; [by right|done].
      * intros [?|(x' & Hx' & ->)]; [by left|].
        apply elem_of_cons in Hx' as [->|Hx']; [by left|].
        right. by exists x'.
    + apply bool_decide_eq_false in Hin.
      assert (NoDup (acc ++ [f x])) as Hacc'.
      { apply NoDup_app. split; [done|]. split; [|apply NoDup_singleton].
        intros y Hy Hy'. apply list_elem_of_singleton in Hy'. by subst. }
      destruct (IH _ Hacc') as [Hnd Hmem]. split; [done|].
      intros y. rewrite Hmem, elem_of_app, list_elem_of_singleton. split.
      * intros [[?| ->]|(x' & Hx' & ->)].
        -- by left.
        -- right. exists x. split; [by left|done].
        -- right. exists x'. split; [by right|done].
      * intros [?|(x' & Hx' & ->)]; [by left; left|].
        apply elem_of_cons in Hx' as [->|Hx']; [by left; right|].
        right. by exists x'.
Qed.

End PushFacts.

Module LinkProperties.
Import CrossReference SortFacts PushFacts.

Section WithCaseMapping.
Context `{CaseMapping}.

(** X10.  The references are pairwise distinct, and they are the targets of
    the markers, lower-cased and trimmed. *)
Theorem extractInternalReferences_distinct (content : jsstring) :
  NoDup (extractInternalReferences content)
  ∧ ∀ reference,
      reference ∈ extractInternalReferences content
      ↔ ∃ hit, hit ∈ matchAll wikiLink content
               ∧ reference = trim (toLowerCase (wikiLinkTarget hit)).
Proof.
  destruct (fold_push_new (fun hit => trim (toLowerCase (wikiLinkTarget hit)))
              (matchAll wikiLink content) [] NoDup_nil_2) as [Hnd Hmem].
  split; [exact Hnd|].
  intros reference. unfold extractInternalReferences. rewrite Hmem.
  split; [|by right]. intros [Hnil|?]; [|done]. by apply elem_of_nil in Hnil.
Qed.


Lemma jsstring_eqb_true (s t : jsstring) : jsstring_eqb s t = true ↔ s = t.
Proof. unfold jsstring_eqb. apply bool_decide_eq_true. Qed.

Lemma existsb_elem_of (ref : jsstring) (l : list jsstring) :
  existsb (fun r => jsstring_eqb r ref) l = true ↔ ref ∈ l.
Proof.
  rewrite existsb_exists. split.
  - intros (r & Hr & E). apply jsstring_eqb_true in E. subst.
    by apply list_elem_of_In.
  - intros Hr. exists ref. split; [by apply list_elem_of_In|].
    by apply jsstring_eqb_true.
Qed.

(** The entry that [findBacklinks] pushes for an article. *)
Definition backLinkOf (article : Article) : BackLink :=
  {| backlink_id := id article;
     backlink_title := title article;
     backlink_slug := slug article |}.

Definition refersTo (currentArticleTitle : jsstring) (article : Article)
  : bool :=
  bool_decide (toLowerCase currentArticleTitle
               ∈ extractInternalReferences (content article)).

Lemma findBacklinks_filter (currentArticleTitle : jsstring)
  (allArticles : list Article) :
  findBacklinks currentArticleTitle allArticles
  = map backLinkOf (List.filter (refersTo currentArticleTitle) allArticles).
Proof.
  unfold findBacklinks.
  assert (∀ l backlinks,
            fold_left
              (fun backlinks article =>
                 if existsb
                      (fun ref =>
                         jsstring_eqb ref (toLowerCase currentArticleTitle))
                      (extractInternalReferences (content article))
                 then backlinks ++ [backLinkOf article]
                 else backlinks)
              l backlinks
            = backlinks
              ++ map backLinkOf (List.filter (refersTo currentArticleTitle) l))
    as Hfold.
  { induction l as [|a l IH]; intros backlinks.
    - simpl. by rewrite app_nil_r.
    - cbn [fold_left List.filter]. rewrite IH. unfold refersTo at 2.
      destruct (existsb _ _) eqn:E.
      + apply existsb_elem_of in E. rewrite bool_decide_true by done.
        by rewrite <- app_assoc.
      + rewrite bool_decide_false; [done|].
        intros Hin. apply existsb_elem_of in Hin. congruence. }
  apply (Hfold allArticles []).
Qed.

(** *** The graph *)

(** The node stored for an article by the first loop. *)
Definition nodeOf (article : Article) : KnowledgeGraphNode :=
  {| node_id := id article;
     node_title := title article;
     node_slug := slug article;
     connections := [] |}.

Definition nodes (articles : list Article)
  (graph : gmap jsstring KnowledgeGraphNode)
  : gmap jsstring KnowledgeGraphNode :=
  fold_left (fun graph article => <[id article := nodeOf article]> graph)
            articles graph.

(** A graph over a set of ids: each node is stored under its own id, and
    its connections point to ids of the set, none of them with the type
    [referencedBy]. *)
Definition over (ids : list jsstring)
  (graph : gmap jsstring KnowledgeGraphNode) : Prop :=
  (∀ k, is_Some (graph !! k) ↔ k ∈ ids)
  ∧ ∀ k node, graph !! k = Some node →
      node_id node = k
      ∧ Forall (fun c => nodeId c ∈ ids ∧ type c ≠ referencedBy)
               (connections node).

Lemma nodes_lookup (articles : list Article)
  (graph : gmap jsstring KnowledgeGraphNode) (k : jsstring) :
  (is_Some (nodes articles graph !! k)
   ↔ is_Some (graph !! k) ∨ k ∈ map id articles)
  ∧ ∀ node, nodes articles graph !! k = Some node →
      graph !! k = Some node ∨ (node_id node = k ∧ connections node = []).
Proof.
  revert graph. induction articles as [|a l IH]; intros graph.
  - simpl. split; [|by left]. split; [by left|].
    intros [?|Hk]; [done|]. by apply elem_of_nil in Hk.
  - cbn [nodes fold_left map]. fold (nodes l (<[id a:=nodeOf a]> graph)).
    destruct (IH (<[id a:=nodeOf a]> graph)) as [Hdom Hnode]. split.
    + rewrite Hdom, elem_of_cons.
      destruct (decide (k = id a)) as [->|Hne].
      * rewrite lookup_insert_eq. split; [|by left]. intros _. by right; left.
      * rewrite lookup_insert_ne by done. naive_solver.
    + intros node Hk. destruct (Hnode node Hk) as [Hg|?]; [|by right].
      destruct (decide (k = id a)) as [->|Hne].
      * rewrite lookup_insert_eq in Hg. injection Hg as <-. by right.
      * rewrite lookup_insert_ne in Hg by done. by left.
Qed.

Lemma nodes_over (articles : list Article) :
  over (map id articles) (nodes articles ∅).
Proof.
  split.
  - intros k. destruct (nodes_lookup articles ∅ k) as [-> _].
    rewrite lookup_empty. split; [|by right].
    intros [[? ?]|?]; done.
  - intros k node Hk. destruct (nodes_lookup articles ∅ k) as [_ Hnode].
    destruct (Hnode node Hk) as [Hg|[? ->]]; [by rewrite lookup_empty in Hg|].
    split; [done|constructor].
Qed.

Lemma findRelatedArticles_from (currentArticle : Article)
  (allArticles : list Article) (limit : nat) :
  Forall (fun r => related_id r ∈ map id allArticles)
         (findRelatedArticles currentArticle allArticles limit).
Proof.
  unfold findRelatedArticles. apply Forall_map, Forall_take.
  eapply Permutation_Forall; [symmetry; apply (sort_perm snd)|].
  apply Forall_forall. intros e He. cbn [related_id].
  apply list_elem_of_In, filter_In in He as [He _].
  apply in_map_iff in He as (a & <- & Ha). cbn [fst].
  apply filter_In in Ha as [Ha _].
  apply list_elem_of_fmap. exists a. split; [done|by apply list_elem_of_In].
Qed.

Definition linked (ids : list jsstring) (c : Connection) : Prop :=
  nodeId c ∈ ids ∧ type c ≠ referencedBy.

Lemma addReference_linked (articles : list Article)
  (connections : list Connection) (ref : jsstring) :
  Forall (linked (map id articles)) connections →
  Forall (linked (map id articles)) (addReference articles connections ref).
Proof.
  intros Hc. unfold addReference.
  destruct (List.find _ articles) as [b|] eqn:Hfind; [|done].
  destruct (existsb _ connections); [done|].
  apply Forall_app. split; [done|]. apply Forall_singleton.
  apply find_some in Hfind as [Hb _]. split; [|done]. cbn [nodeId].
  apply list_elem_of_fmap. exists b. split; [done|by apply list_elem_of_In].
Qed.

Lemma fold_addReference_linked (articles : list Article)
  (references : list jsstring) (connections : list Connection) :
  Forall (linked (map id articles)) connections →
  Forall (linked (map id articles))
         (fold_left (addReference articles) references connections).
Proof.
  revert connections. induction references as [|r l IH]; [done|].
  intros connections Hc. simpl. by apply IH, addReference_linked.
Qed.

Lemma connect_over (articles : list Article) (maxConnectionsPerArticle : nat)
  (graph : gmap jsstring KnowledgeGraphNode) (article : Article) :
  over (map id articles) graph →
  over (map id articles)
       (connect articles maxConnectionsPerArticle graph article).
Proof.
  intros [Hdom Hnodes]. unfold connect.
  destruct (graph !! id article) as [node|] eqn:Hnode; [|done].
  destruct (Hnodes _ _ Hnode) as [Hid Hc]. split.
  - intros k. rewrite <- Hdom. destruct (decide (k = id article)) as [->|Hne].
    + rewrite lookup_insert_eq, Hnode. split; intros _; by eexists.
    + by rewrite lookup_insert_ne.
  - intros k node' Hk. destruct (decide (k = id article)) as [->|Hne].
    + rewrite lookup_insert_eq in Hk. injection Hk as <-.
      cbn [node_id connections]. split; [done|].
      apply fold_addReference_linked, Forall_app. split; [exact Hc|].
      apply Forall_map.
      eapply Forall_impl; [apply findRelatedArticles_from|].
      intros r Hr. by split.
    + rewrite lookup_insert_ne in Hk by done. by apply Hnodes.
Qed.

Lemma buildKnowledgeGraph_over (articles : list Article)
  (maxConnectionsPerArticle : nat) :
  over (map id articles)
       (buildKnowledgeGraph articles maxConnectionsPerArticle).
Proof.
  assert (∀ processed graph,
            over (map id articles) graph →
            over (map id articles)
                 (fold_left (connect articles maxConnectionsPerArticle)
                            processed graph)) as Hfold.
  { induction processed as [|a l IH]; intros graph Hover; [done|].
    simpl. by apply IH, connect_over. }
  apply Hfold, nodes_over.
Qed.

(** X11.  The graph has one node for each id of the articles, stored under
    its id; every connection points to a node of the graph, and none has
    the type [referencedBy]. *)
Theorem buildKnowledgeGraph_closed (articles : list Article)
  (maxConnectionsPerArticle : nat) :
  let graph := buildKnowledgeGraph articles maxConnectionsPerArticle in
  (∀ k, is_Some (graph !! k) ↔ k ∈ map id articles)
  ∧ ∀ k node, graph !! k = Some node →
      node_id node = k
      ∧ Forall (fun c => is_Some (graph !! nodeId c)
                         ∧ type c ≠ referencedBy)
               (connections node).
Proof.
  intros graph.
  destruct (buildKnowledgeGraph_over articles maxConnectionsPerArticle)
    as [Hdom Hnodes].
  split; [exact Hdom|]. intros k node Hk.
  destruct (Hnodes k node Hk) as [Hid Hc]. split; [done|].
  eapply Forall_impl; [exact Hc|]. intros c [Hin Hty].
  split; [by apply Hdom|done].
Qed.


(** *** Backlinks are edges of the graph *)

Lemma addReference_keeps (articles : list Article)
  (connections : list Connection) (ref : jsstring) (k : jsstring) :
  k ∈ map nodeId connections →
  k ∈ map nodeId (addReference articles connections ref).
Proof.
  intros Hk. unfold addReference.
  destruct (List.find _ articles) as [b|]; [|done].
  destruct (existsb _ connections); [done|].
  rewrite map_app. apply elem_of_app. by left.
Qed.

Lemma fold_addReference_keeps (articles : list Article)
  (references : list jsstring) (connections : list Connection)
  (k : jsstring) :
  k ∈ map nodeId connections →
  k ∈ map nodeId (fold_left (addReference articles) references connections).
Proof.
  revert connections. induction references as [|r l IH]; [done|].
  intros connections Hk. simpl. by apply IH, addReference_keeps.
Qed.

Lemma fold_addReference_adds (articles : list Article)
  (references : list jsstring) (connections : list Connection)
  (ref : jsstring) (b : Article) :
  ref ∈ references →
  List.find (fun a => jsstring_eqb (toLowerCase (title a)) ref) articles
  = Some b →
  id b ∈ map nodeId
           (fold_left (addReference articles) references connections).
Proof.
  intros Href Hfind. revert connections.
  induction references as [|r l IH]; intros connections.
  - by apply elem_of_nil in Href.
  - apply elem_of_cons in Href as [<-|Href]; [|by apply IH].
    simpl. apply fold_addReference_keeps. unfold addReference.
    rewrite Hfind. destruct (existsb _ connections) eqn:E.
    + apply existsb_exists in E as (c & Hc & E).
      apply jsstring_eqb_true in E. rewrite <- E.
      apply list_elem_of_fmap. exists c. split; [done|].
      by apply list_elem_of_In.
    + rewrite map_app. apply elem_of_app. right. by left.
Qed.

(** The node stored under [k] has a connection to [target]. *)
Definition pointsTo (graph : gmap jsstring KnowledgeGraphNode)
  (k target : jsstring) : Prop :=
  ∃ node, graph !! k = Some node ∧ target ∈ map nodeId (connections node).

Lemma connect_keeps (articles : list Article) (maxConnectionsPerArticle : nat)
  (graph : gmap jsstring KnowledgeGraphNode) (article : Article)
  (k target : jsstring) :
  pointsTo graph k target →
  pointsTo (connect articles maxConnectionsPerArticle graph article) k target.
Proof.
  intros (node & Hk & Ht). unfold connect.
  destruct (graph !! id article) as [node'|] eqn:Hnode; [|by exists node].
  destruct (decide (k = id article)) as [->|Hne].
  - eexists. rewrite lookup_insert_eq. split; [done|]. cbn [connections].
    apply fold_addReference_keeps. rewrite map_app. apply elem_of_app. left.
    congruence.
  - exists node. by rewrite lookup_insert_ne.
Qed.

Lemma fold_connect_keeps (articles : list Article)
  (maxConnectionsPerArticle : nat) (processed : list Article)
  (graph : gmap jsstring KnowledgeGraphNode) (k target : jsstring) :
  pointsTo graph k target →
  pointsTo (fold_left (connect articles maxConnectionsPerArticle)
                      processed graph) k target.
Proof.
  revert graph. induction processed as [|a l IH]; [done|].
  intros graph Hp. simpl. by apply IH, connect_keeps.
Qed.

Lemma connect_adds (articles : list Article) (maxConnectionsPerArticle : nat)
  (graph : gmap jsstring KnowledgeGraphNode) (article b : Article)
  (ref : jsstring) :
  is_Some (graph !! id article) →
  ref ∈ extractInternalReferences (content article) →
  List.find (fun a => jsstring_eqb (toLowerCase (title a)) ref) articles
  = Some b →
  pointsTo (connect articles maxConnectionsPerArticle graph article)
           (id article) (id b).
Proof.
  intros [node Hnode] Href Hfind. unfold connect. rewrite Hnode.
  eexists. rewrite lookup_insert_eq. split; [done|]. cbn [connections].
  by apply (fold_addReference_adds _ _ _ ref).
Qed.

Lemma fold_connect_adds (articles : list Article)
  (maxConnectionsPerArticle : nat) (processed : list Article)
  (graph : gmap jsstring KnowledgeGraphNode) (article b : Article)
  (ref : jsstring) :
  over (map id articles) graph →
  article ∈ processed →
  id article ∈ map id articles →
  ref ∈ extractInternalReferences (content article) →
  List.find (fun a => jsstring_eqb (toLowerCase (title a)) ref) articles
  = Some b →
  pointsTo (fold_left (connect articles maxConnectionsPerArticle)
                      processed graph) (id article) (id b).
Proof.
  intros Hover Hin Hid Href Hfind. revert graph Hover.
  induction processed as [|a l IH]; intros graph Hover.
  - by apply elem_of_nil in Hin.
  - simpl. apply elem_of_cons in Hin as [<-|Hin].
    + apply fold_connect_keeps, (connect_adds _ _ _ _ _ ref); [|done|done].
      by apply Hover.
    + apply IH; [done|]. by apply connect_over.
Qed.

(** X12.  An article that [findBacklinks] reports for a title has, in the
    graph built from the same articles, a connection to the first
    article that carries this title. *)
Theorem findBacklinks_connected (currentArticleTitle : jsstring)
  (articles : list Article) (maxConnectionsPerArticle : nat)
  (backlink : BackLink) (target : Article) :
  backlink ∈ findBacklinks currentArticleTitle articles →
  List.find (fun a => jsstring_eqb (toLowerCase (title a))
                                   (toLowerCase currentArticleTitle))
            articles = Some target →
  ∃ node,
    buildKnowledgeGraph articles maxConnectionsPerArticle
      !! backlink_id backlink = Some node
    ∧ id target ∈ map nodeId (connections node).
Proof.
  intros Hb Hfind. rewrite findBacklinks_filter in Hb.
  apply list_elem_of_fmap in Hb as (a & -> & Ha).
  apply list_elem_of_In, filter_In in Ha as [Ha Href].
  apply list_elem_of_In in Ha. apply bool_decide_eq_true in Href.
  cbn [backlink_id]. unfold buildKnowledgeGraph.
  apply (fold_connect_adds _ _ _ _ _ _ (toLowerCase currentArticleTitle));
    try done.
  - apply nodes_over.
  - apply list_elem_of_fmap. by exists a.
Qed.


(** *** The node of an article, when the ids are pairwise distinct *)

Lemma NoDup_map_filter {A B} (g : A → B) (P : A → bool) (l : list A) :
  NoDup (map g l) → NoDup (map g (List.filter P l)).
Proof.
  induction l as [|x l IH]; [done|]. cbn [map List.filter].
  intros Hnd. apply NoDup_cons in Hnd as [Hx Hl].
  destruct (P x); [|by apply IH]. cbn [map]. apply NoDup_cons.
  split; [|by apply IH]. intros Hin. apply Hx.
  apply list_elem_of_fmap in Hin as (y & -> & Hy).
  apply list_elem_of_In, filter_In in Hy as [Hy _].
  apply list_elem_of_fmap. exists y. split; [done|by apply list_elem_of_In].
Qed.

Lemma findRelatedArticles_distinct (currentArticle : Article)
  (allArticles : list Article) (limit : nat) :
  NoDup (map id allArticles) →
  NoDup (map related_id
             (findRelatedArticles currentArticle allArticles limit)).
Proof.
  intros Hnd. unfold findRelatedArticles.
  rewrite map_map. cbn [related_id].
  rewrite <- firstn_map.
  eapply sublist_NoDup; [|apply sublist_take].
  eapply (NoDup_Permutation_proper _ _); [|].
  - apply Permutation_map, (sort_perm snd).
  - apply NoDup_map_filter. rewrite map_map. cbn [fst].
    by apply NoDup_map_filter.
Qed.

Lemma findRelatedArticles_length (currentArticle : Article)
  (allArticles : list Article) (limit : nat) :
  (length (findRelatedArticles currentArticle allArticles limit) ≤ limit)%nat.
Proof.
  unfold findRelatedArticles. rewrite length_map, length_take. lia.
Qed.

Lemma fold_addReference_appends (articles : list Article)
  (references : list jsstring) (connections : list Connection) :
  NoDup (map nodeId connections) →
  ∃ added,
    fold_left (addReference articles) references connections
    = connections ++ added
    ∧ Forall (fun c => type c = CrossReference.references) added
    ∧ NoDup (map nodeId (connections ++ added)).
Proof.
  revert connections. induction references as [|r l IH]; intros connections Hnd.
  - exists []. rewrite app_nil_r. by repeat split.
  - cbn [fold_left]. unfold addReference at 2.
    destruct (List.find _ articles) as [b|]; [|by apply IH].
    destruct (existsb _ connections) eqn:E; [by apply IH|].
    destruct (IH (connections ++ [{| nodeId := id b; type := CrossReference.references |}]))
      as (added & -> & Hty & Hnd').
    + rewrite map_app. apply NoDup_app. split; [done|].
      split; [|apply NoDup_singleton].
      intros k Hk Hk'. apply list_elem_of_singleton in Hk'. subst k.
      apply list_elem_of_fmap in Hk as (c & Hc & Hin).
      assert (existsb (fun c => jsstring_eqb (nodeId c) (id b)) connections
              = true) as E'; [|congruence].
      apply existsb_exists. exists c. split; [by apply list_elem_of_In|].
      by apply jsstring_eqb_true.
    + eexists. rewrite <- app_assoc. split; [done|].
      split; [|by rewrite app_assoc]. by constructor.
Qed.

(** The connections that the second loop gives the node of an article
    that had none. *)
Definition connectionsOf (articles : list Article)
  (maxConnectionsPerArticle : nat) (article : Article) : list Connection :=
  fold_left (addReference articles)
    (extractInternalReferences (content article))
    (map (fun r => {| nodeId := related_id r; type := related |})
         (findRelatedArticles article articles maxConnectionsPerArticle)).

Definition connected (articles : list Article)
  (maxConnectionsPerArticle : nat) (article : Article) : KnowledgeGraphNode :=
  {| node_id := id article;
     node_title := title article;
     node_slug := slug article;
     connections := connectionsOf articles maxConnectionsPerArticle article |}.

Lemma nodes_distinct (articles : list Article)
  (graph : gmap jsstring KnowledgeGraphNode) :
  NoDup (map id articles) →
  (∀ a, a ∈ articles → nodes articles graph !! id a = Some (nodeOf a))
  ∧ (∀ k, k ∉ map id articles → nodes articles graph !! k = graph !! k).
Proof.
  revert graph. induction articles as [|a l IH]; intros graph Hnd.
  - split; [|done]. intros a Ha. by apply elem_of_nil in Ha.
  - cbn [map] in Hnd. apply NoDup_cons in Hnd as [Ha Hl].
    cbn [nodes fold_left]. fold (nodes l (<[id a:=nodeOf a]> graph)).
    destruct (IH (<[id a:=nodeOf a]> graph) Hl) as [Hin Hout]. split.
    + intros b Hb. apply elem_of_cons in Hb as [->|Hb]; [|by apply Hin].
      rewrite Hout by done. by rewrite lookup_insert_eq.
    + intros k Hk. cbn [map] in Hk. apply not_elem_of_cons in Hk as [Hne Hk].
      rewrite Hout by done. by rewrite lookup_insert_ne.
Qed.

Lemma fold_connect_distinct (articles : list Article)
  (maxConnectionsPerArticle : nat) (processed : list Article)
  (graph : gmap jsstring KnowledgeGraphNode) :
  NoDup (map id processed) →
  (∀ a, a ∈ processed → graph !! id a = Some (nodeOf a)) →
  let graph' :=
    fold_left (connect articles maxConnectionsPerArticle) processed graph in
  (∀ a, a ∈ processed →
        graph' !! id a
        = Some (connected articles maxConnectionsPerArticle a))
  ∧ (∀ k, k ∉ map id processed → graph' !! k = graph !! k).
Proof.
  revert graph. induction processed as [|a l IH]; intros graph Hnd Hnodes.
  - split; [|done]. intros a Ha. by apply elem_of_nil in Ha.
  - cbn [map] in Hnd. apply NoDup_cons in Hnd as [Ha Hl].
    cbn [fold_left].
    assert (connect articles maxConnectionsPerArticle graph a
            = <[id a := connected articles maxConnectionsPerArticle a]> graph)
      as ->.
    { unfold connect. rewrite (Hnodes a) by by left. done. }
    destruct (IH (<[id a := connected articles maxConnectionsPerArticle a]>
                    graph) Hl) as [Hin Hout].
    { intros b Hb. rewrite lookup_insert_ne; [apply Hnodes; by right|].
      intros E. apply Ha. rewrite E.
      apply list_elem_of_fmap. by exists b. }
    split.
    + intros b Hb. apply elem_of_cons in Hb as [->|Hb]; [|by apply Hin].
      rewrite Hout by done. by rewrite lookup_insert_eq.
    + intros k Hk. cbn [map] in Hk. apply not_elem_of_cons in Hk as [Hne Hk].
      rewrite Hout by done. by rewrite lookup_insert_ne.
Qed.

(** X13.  When the ids of the articles are pairwise distinct, the node of
    an article carries its title and slug; its connections are one
    [related] edge for each related article, in their order, followed by
    [references] edges, and no two of them have the same target. *)
Theorem buildKnowledgeGraph_node (articles : list Article)
  (maxConnectionsPerArticle : nat) (article : Article) :
  NoDup (map id articles) →
  article ∈ articles →
  ∃ node referenced,
    buildKnowledgeGraph articles maxConnectionsPerArticle !! id article
    = Some node
    ∧ node_title node = title article
    ∧ node_slug node = slug article
    ∧ connections node
      = map (fun r => {| nodeId := related_id r; type := related |})
            (findRelatedArticles article articles maxConnectionsPerArticle)
        ++ referenced
    ∧ Forall (fun c => type c = references) referenced
    ∧ NoDup (map nodeId (connections node)).
Proof.
  intros Hnd Hin.
  destruct (nodes_distinct articles ∅ Hnd) as [Hnodes _].
  destruct (fold_connect_distinct articles maxConnectionsPerArticle articles
              (nodes articles ∅) Hnd Hnodes) as [Hgraph _].
  specialize (Hgraph article Hin).
  destruct (fold_addReference_appends articles
              (extractInternalReferences (content article))
              (map (fun r => {| nodeId := related_id r; type := related |})
                 (findRelatedArticles article articles
                    maxConnectionsPerArticle)))
    as (added & E & Hty & Hnd').
  { rewrite map_map. cbn [nodeId]. by apply findRelatedArticles_distinct. }
  exists (connected articles maxConnectionsPerArticle article), added.
  split; [exact Hgraph|]. cbn [connected node_title node_slug connections].
  unfold connectionsOf. rewrite E. by repeat split.
Qed.


(** *** The related articles *)

Lemma StronglySorted_map {A B} (f : A → B) (R : B → B → Prop) (l : list A) :
  StronglySorted (fun a b => R (f a) (f b)) l → StronglySorted R (map f l).
Proof.
  induction 1 as [|x l Hl IH Hx]; [constructor|]. cbn [map].
  constructor; [done|]. by apply Forall_map.
Qed.

(** The articles that can be related to the current one: another id, and
    a similarity above one tenth. *)
Definition qualifies (currentArticle article : Article) : bool :=
  negb (jsstring_eqb (id article) (id currentArticle))
  && negb (Qle_bool (calculateSimilarity (content currentArticle)
                                         (content article)) (1 # 10)).

Lemma filter_map_filter (currentArticle : Article) (l : list Article) :
  List.filter (fun a => negb (Qle_bool (snd a) (1 # 10)))
    (map (fun article =>
            (article, calculateSimilarity (content currentArticle)
                                          (content article)))
         (List.filter (fun article =>
                         negb (jsstring_eqb (id article) (id currentArticle)))
                      l))
  = map (fun article =>
           (article, calculateSimilarity (content currentArticle)
                                         (content article)))
        (List.filter (qualifies currentArticle) l).
Proof.
  induction l as [|a l IH]; [done|]. cbn [List.filter]. unfold qualifies at 1.
  destruct (negb (jsstring_eqb (id a) (id currentArticle))); cbn [andb];
    [|done].
  cbn [map List.filter snd].
  destruct (negb (Qle_bool _ _)); cbn [map]; by rewrite IH.
Qed.

(** X14.  The related articles are at most [limit] of the articles with
    another id and a similarity above one tenth, each with the fields of
    its article and this similarity as its score, in descending order of
    the score. *)
Theorem findRelatedArticles_ranked (currentArticle : Article)
  (allArticles : list Article) (limit : nat) :
  let result := findRelatedArticles currentArticle allArticles limit in
  length result
  = Nat.min limit
      (length (List.filter (qualifies currentArticle) allArticles))
  ∧ Forall (fun r =>
              ∃ article,
                article ∈ allArticles
                ∧ id article ≠ id currentArticle
                ∧ related_id r = id article
                ∧ related_title r = title article
                ∧ related_slug r = slug article
                ∧ related_description r = description article
                ∧ relevanceScore r
                  = calculateSimilarity (content currentArticle)
                                        (content article)
                ∧ (1 # 10 < relevanceScore r)%Q)
           result
  ∧ StronglySorted (fun r1 r2 => (relevanceScore r2 <= relevanceScore r1)%Q)
                   result.
Proof.
  intros result. subst result. unfold findRelatedArticles.
  rewrite filter_map_filter.
  set (scored := map _ (List.filter (qualifies currentArticle) allArticles)).
  split; [|split].
  - rewrite length_map, length_take.
    change (sort _ scored) with (sort (descending snd) scored).
    rewrite (Permutation_length (sort_perm snd scored)).
    unfold scored. by rewrite length_map.
  - apply Forall_map, Forall_take.
    eapply Permutation_Forall; [symmetry; apply (sort_perm snd)|].
    apply Forall_forall. intros e He. unfold scored in He.
    apply list_elem_of_fmap in He as (a & -> & Ha).
    apply list_elem_of_In, filter_In in Ha as [Ha Hq].
    apply andb_true_iff in Hq as [Hid Hscore].
    exists a. cbn [fst snd related_id related_title related_slug
                   related_description relevanceScore].
    repeat split; try done.
    + by apply list_elem_of_In.
    + apply negb_true_iff in Hid. unfold jsstring_eqb in Hid.
      by apply bool_decide_eq_false in Hid.
    + apply negb_true_iff in Hscore.
      destruct (Qlt_le_dec (1 # 10)
                  (calculateSimilarity (content currentArticle) (content a)))
        as [?|Hle]; [done|].
      apply Qle_bool_iff in Hle. congruence.
  - apply StronglySorted_map. cbn [relevanceScore].
    change (sort _ scored) with (sort (descending snd) scored).
    pose proof (sort_sorted snd scored) as Hs.
    rewrite <- (take_drop limit (sort (descending snd) scored)) in Hs.
    by apply StronglySorted_app_1_l in Hs.
Qed.

End WithCaseMapping.

Definition alpha : Article :=
  {| id := str "a"; title := str "Alpha"; slug := str "alpha";
     description := None;
     content := str "Read [[Beta]] first, then [[ beta ]] again." |}.

Definition beta : Article :=
  {| id := str "b"; title := str "Beta"; slug := str "beta";
     description := None; content := str "Nothing to link here." |}.

Lemma findBacklinks_connected_witness :
  let H : CaseMapping := asciiToLowerCase in
  ∃ node,
    buildKnowledgeGraph [alpha; beta] 10 !! backlink_id (backLinkOf alpha)
    = Some node
    ∧ id beta ∈ map nodeId (connections node).
Proof.
  intros H.
  apply (findBacklinks_connected (str "BETA") [alpha; beta] 10
           (backLinkOf alpha) beta).
  - vm_compute. constructor.
  - vm_compute. reflexivity.
Defined.

Lemma buildKnowledgeGraph_node_witness :
  let H : CaseMapping := asciiToLowerCase in
  ∃ node referenced,
    buildKnowledgeGraph [alpha; beta] 10 !! id alpha = Some node
    ∧ node_title node = title alpha
    ∧ node_slug node = slug alpha
    ∧ connections node
      = map (fun r => {| nodeId := related_id r; type := related |})
            (findRelatedArticles alpha [alpha; beta] 10)
        ++ referenced
    ∧ Forall (fun c => type c = references) referenced
    ∧ NoDup (map nodeId (connections node)).
Proof.
  intros H.
  apply (buildKnowledgeGraph_node [alpha; beta] 10 alpha).
  - apply (bool_decide_unpack _). vm_compute. exact I.
  - constructor.
Defined.

End LinkProperties.

Module KeywordProperties.
Import CrossReference.

Lemma sortInsert_permutation {A} (compare : A → A → Q) (x : A) (l : list A) :
  Permutation (sortInsert compare x l) (x :: l).
Proof.
  induction l as [|y l IH]; simpl; [done|].
  destruct (Qle_bool (compare x y) 0); [done|].
  rewrite IH. apply perm_swap.
Qed.

Lemma sort_permutation {A} (compare : A → A → Q) (l : list A) :
  Permutation (sort compare l) l.
Proof.
  induction l as [|x l IH]; simpl; [done|].
  rewrite sortInsert_permutation. by constructor.
Qed.

Lemma filter_partition {A} (P : A → bool) (l : list A) :
  Permutation (List.filter P l ++ List.filter (fun x => negb (P x)) l) l.
Proof.
  induction l as [|x l IH]; [done|]. cbn [List.filter].
  destruct (P x); cbn [negb app]; [by constructor|].
  rewrite <- Permutation_middle. by constructor.
Qed.

(** [Object.entries] lists every own property once. *)
Lemma entries_permutation (o : table) : Permutation (entries o) o.
Proof.
  unfold entries. rewrite sort_permutation. apply filter_partition.
Qed.

Lemma setOwn_keys (o : table) (key : jsstring) (v : count) :
  map fst (setOwn o key v)
  = if bool_decide (key ∈ map fst o) then map fst o else map fst o ++ [key].
Proof.
  induction o as [|[k w] o IH]; [done|]. cbn [setOwn map fst].
  unfold jsstring_eqb. destruct (decide (k = key)) as [->|Hne].
  - rewrite bool_decide_true by done. rewrite bool_decide_true by by left.
    done.
  - rewrite (bool_decide_false (k = key)) by done. cbn [map fst]. rewrite IH.
    destruct (decide (key ∈ map fst o)) as [Hin|Hout].
    + rewrite !bool_decide_true; [done|by right|done].
    + rewrite !bool_decide_false; [done| |done].
      intros [E|?]%elem_of_cons; [by subst|done].
Qed.

(** The keys of the table of counts: each word once, in the order of the
    first occurrences, and never [__proto__]. *)
Definition tallied (words : list jsstring) (o : table) : Prop :=
  NoDup (map fst o)
  ∧ Forall (fun k => k ∈ words ∧ k ≠ str "__proto__") (map fst o).

Lemma tally_tallied (words : list jsstring) (o : table) (word : jsstring) :
  word ∈ words → tallied words o → tallied words (tally o word).
Proof.
  intros Hw [Hnd Hk]. unfold tally, jsstring_eqb.
  destruct (decide (word = str "__proto__")) as [E|Hne].
  - by rewrite bool_decide_true.
  - rewrite bool_decide_false by done. unfold tallied. rewrite setOwn_keys.
    destruct (decide (word ∈ map fst o)) as [Hin|Hout].
    + by rewrite bool_decide_true.
    + rewrite bool_decide_false by done. split.
      * apply NoDup_app. split; [done|]. split; [|apply NoDup_singleton].
        intros k Hin Hin'. apply list_elem_of_singleton in Hin'. by subst.
      * apply Forall_app. split; [done|]. by apply Forall_singleton.
Qed.

Lemma fold_tally_tallied (words : list jsstring) :
  tallied words (fold_left tally words []).
Proof.
  assert (∀ l o, l ⊆ words → tallied words o →
                 tallied words (fold_left tally l o)) as Hfold.
  { induction l as [|w l IH]; intros o Hl Ho; [done|]. simpl.
    apply IH; [set_solver|]. apply tally_tallied; [set_solver|done]. }
  apply Hfold; [done|]. split; constructor.
Qed.

Section WithCaseMapping.
Context `{CaseMapping}.

(** X15.  The keywords are at most [maxKeywords] pairwise distinct words of
    the content (lower-cased, without its punctuation), each longer than
    four code units; [__proto__] is never a keyword. *)
Theorem extractKeywords_keywords (content : jsstring) (maxKeywords : nat) :
  let words :=
    split Rag.whitespace (replaceAll punctuation [] (toLowerCase content)) in
  let keywords := extractKeywords content maxKeywords in
  (length keywords ≤ maxKeywords)%nat
  ∧ NoDup keywords
  ∧ Forall (fun k => k ∈ words ∧ (4 < length k)%nat ∧ k ≠ str "__proto__")
           keywords.
Proof.
  intros words keywords. subst keywords. unfold extractKeywords.
  fold words.
  set (long := List.filter (fun word => (4 <? length word)%nat) words).
  destruct (fold_tally_tallied long) as [Hnd Hk].
  set (frequency := fold_left tally long []) in *.
  assert (Permutation
            (map fst (sort byCountDescending (entries frequency)))
            (map fst frequency)) as Hperm.
  { apply Permutation_map. rewrite sort_permutation.
    apply entries_permutation. }
  split; [|split].
  - rewrite length_map, length_take. lia.
  - rewrite <- firstn_map. eapply sublist_NoDup; [|apply sublist_take].
    by rewrite Hperm.
  - rewrite <- firstn_map. apply Forall_take. rewrite Hperm.
    eapply Forall_impl; [exact Hk|]. intros k [Hin Hne].
    unfold long in Hin. apply list_elem_of_In, filter_In in Hin as [Hin Hlen].
    apply Nat.ltb_lt in Hlen. split; [by apply list_elem_of_In|done].
Qed.

End WithCaseMapping.

End KeywordProperties.

Module FrequencyProperties.
Import CrossReference SortFacts KeywordProperties LinkProperties.

(** How often a word occurs in a list of words. *)
Definition occurrences (word : jsstring) (words : list jsstring) : nat :=
  length (List.filter (jsstring_eqb word) words).

Lemma occurrences_snoc (word : jsstring) (words : list jsstring)
  (w : jsstring) :
  occurrences word (words ++ [w])
  = (occurrences word words + if decide (word = w) then 1 else 0)%nat.
Proof.
  unfold occurrences. rewrite List.filter_app, length_app. f_equal.
  cbn [List.filter]. unfold jsstring_eqb.
  destruct (decide (word = w)).
  - by rewrite bool_decide_true.
  - by rewrite bool_decide_false.
Qed.

Lemma getOwn_setOwn (o : table) (key : jsstring) (v : count) (k : jsstring) :
  getOwn (setOwn o key v) k
  = if decide (key = k) then Some v else getOwn o k.
Proof.
  induction o as [|[k' w] o IH]; cbn [setOwn getOwn]; unfold jsstring_eqb.
  - destruct (decide (key = k)).
    + by rewrite bool_decide_true.
    + by rewrite bool_decide_false.
  - destruct (decide (k' = key)) as [->|Hne].
    + rewrite bool_decide_true by done. cbn [getOwn]. unfold jsstring_eqb.
      destruct (decide (key = k)).
      * by rewrite bool_decide_true.
      * by rewrite bool_decide_false.
    + rewrite (bool_decide_false (k' = key)) by done. cbn [getOwn].
      unfold jsstring_eqb.
      destruct (decide (k' = k)) as [->|Hne'].
      * rewrite bool_decide_true by done.
        destruct (decide (key = k)); [by subst|done].
      * rewrite bool_decide_false by done. apply IH.
Qed.

Lemma getOwn_elem_of (o : table) (k : jsstring) (v : count) :
  NoDup (map fst o) → (k, v) ∈ o → getOwn o k = Some v.
Proof.
  induction o as [|[k' w] o IH]; intros Hnd Hin.
  - by apply elem_of_nil in Hin.
  - cbn [map fst] in Hnd. apply NoDup_cons in Hnd as [Hout Hnd].
    cbn [getOwn]. unfold jsstring_eqb.
    apply elem_of_cons in Hin as [[= -> ->]|Hin].
    + by rewrite bool_decide_true.
    + rewrite bool_decide_false; [by apply IH|].
      intros ->. apply Hout. apply list_elem_of_fmap. by exists (k, v).
Qed.

(** The table after the words [seen]: each of them with the number of
    its occurrences. *)
Definition counted (seen : list jsstring) (o : table) : Prop :=
  ∀ k, getOwn o k
       = if decide (occurrences k seen = 0)%nat then None
         else Some (Count (occurrences k seen)).

Lemma tally_counted (seen : list jsstring) (o : table) (word : jsstring) :
  word ∉ objectPrototypeNames →
  counted seen o → counted (seen ++ [word]) (tally o word).
Proof.
  intros Hplain Ho k. unfold tally, jsstring_eqb.
  rewrite bool_decide_false.
  2:{ intros ->. apply Hplain. unfold objectPrototypeNames.
      apply list_elem_of_In. vm_compute. tauto. }
  rewrite getOwn_setOwn, occurrences_snoc.
  destruct (decide (word = k)) as [->|Hne].
  - destruct (decide (k = k)); [|done].
    destruct (decide (occurrences k seen + 1 = 0)%nat); [lia|].
    unfold increment. rewrite (Ho k).
    destruct (decide (occurrences k seen = 0)%nat) as [E|?].
    + rewrite bool_decide_false by done. by rewrite E.
    + done.
  - destruct (decide (k = word)); [by subst|].
    rewrite Nat.add_0_r. apply Ho.
Qed.

Lemma fold_tally_counted (words : list jsstring) :
  Forall (fun w => w ∉ objectPrototypeNames) words →
  counted words (fold_left tally words []).
Proof.
  intros Hplain.
  assert (∀ l seen o,
            Forall (fun w => w ∉ objectPrototypeNames) l →
            counted seen o → counted (seen ++ l) (fold_left tally l o))
    as Hfold.
  { induction l as [|w l IH]; intros seen o Hl Ho.
    - simpl. by rewrite app_nil_r.
    - apply Forall_cons in Hl as [Hw Hl]. simpl.
      replace (seen ++ w :: l) with ((seen ++ [w]) ++ l)
        by by rewrite <- app_assoc.
      apply IH; [done|]. by apply tally_counted. }
  apply (Hfold words [] []); [done|]. intros k. done.
Qed.

(** Sorting with a comparator that orders the elements of the list as a
    key does. *)
Lemma sortInsert_sorted_on {A} (compare : A → A → Q) (key : A → Q) (x : A)
  (l : list A) :
  (∀ y, y ∈ l → Qle_bool (compare x y) 0 = true ↔ (key y <= key x)%Q) →
  StronglySorted (notBelow key) l →
  StronglySorted (notBelow key) (sortInsert compare x l).
Proof.
  induction l as [|y l IH]; simpl; intros Hcmp Hl.
  - repeat constructor.
  - apply StronglySorted_inv in Hl as [Hl Hy].
    destruct (Qle_bool (compare x y) 0) eqn:E.
    + apply Hcmp in E; [|by left]. constructor; [by constructor|].
      constructor; [done|].
      eapply Forall_impl; [exact Hy|]. unfold notBelow. intros z Hz.
      by apply (Qle_trans _ (key y)).
    + assert (key x <= key y)%Q as Hxy.
      { destruct (Qlt_le_dec (key x) (key y)) as [?|Hle];
          [by apply Qlt_le_weak|].
        apply Hcmp in Hle; [congruence|by left]. }
      constructor.
      * apply IH; [|done]. intros z Hz. apply Hcmp. by right.
      * eapply Permutation_Forall;
          [symmetry; apply sortInsert_permutation|].
        by constructor.
Qed.

Lemma sort_sorted_on {A} (compare : A → A → Q) (key : A → Q) (l : list A) :
  (∀ x y, x ∈ l → y ∈ l →
          Qle_bool (compare x y) 0 = true ↔ (key y <= key x)%Q) →
  StronglySorted (notBelow key) (sort compare l).
Proof.
  induction l as [|x l IH]; intros Hcmp; [constructor|]. cbn [sort foldr].
  apply sortInsert_sorted_on.
  - intros y Hy. apply Hcmp; [by left|]. right.
    by rewrite <- (sort_permutation compare l).
  - apply IH. intros y z Hy Hz. apply Hcmp; by right.
Qed.

Lemma StronglySorted_impl_on {A} (R R' : A → A → Prop) (l : list A) :
  (∀ x y, x ∈ l → y ∈ l → R x y → R' x y) →
  StronglySorted R l → StronglySorted R' l.
Proof.
  intros Himpl Hl. induction Hl as [|x l Hl IH Hx]; [constructor|].
  constructor.
  - apply IH. intros y z Hy Hz. apply Himpl; by right.
  - apply Forall_forall. intros y Hy. rewrite Forall_forall in Hx.
    apply Himpl; [by left|by right|by apply Hx].
Qed.

Section WithCaseMapping.
Context `{CaseMapping}.

(** X23.  When no word of the content names a member of
    [Object.prototype], the keywords are in descending order of the
    number of their occurrences among the words longer than four code
    units. *)
Theorem extractKeywords_by_frequency (content : jsstring)
  (maxKeywords : nat) :
  let words :=
    List.filter (fun word => (4 <? length word)%nat)
      (split Rag.whitespace
             (replaceAll punctuation [] (toLowerCase content))) in
  Forall (fun w => w ∉ objectPrototypeNames) words →
  StronglySorted
    (fun k1 k2 => (occurrences k2 words ≤ occurrences k1 words)%nat)
    (extractKeywords content maxKeywords).
Proof.
  intros words Hplain. unfold extractKeywords. fold words.
  pose proof (fold_tally_counted words Hplain) as Hcount.
  destruct (fold_tally_tallied words) as [Hnd _].
  set (frequency := fold_left tally words []) in *.
  assert (∀ e, e ∈ entries frequency →
               snd e = Count (occurrences (fst e) words)) as Hentry.
  { intros [k v] He. rewrite entries_permutation in He.
    apply (getOwn_elem_of _ _ _ Hnd) in He. rewrite (Hcount k) in He.
    destruct (decide _); [done|]. by injection He as <-. }
  set (key := fun e : jsstring * count =>
                inject_Z (Z.of_nat (occurrences (fst e) words))).
  assert (StronglySorted (notBelow key)
            (sort byCountDescending (entries frequency))) as Hsorted.
  { apply sort_sorted_on. intros x y Hx Hy. unfold byCountDescending, key.
    rewrite (Hentry x Hx), (Hentry y Hy), Qle_bool_iff.
    change 0%Q with (inject_Z 0). rewrite <- !Zle_Qle. lia. }
  apply StronglySorted_map.
  rewrite <- (take_drop maxKeywords (sort _ _)) in Hsorted.
  apply StronglySorted_app_1_l in Hsorted.
  eapply StronglySorted_impl_on; [|exact Hsorted].
  intros x y _ _. unfold notBelow, key. rewrite <- Zle_Qle. lia.
Qed.

End WithCaseMapping.

Lemma extractKeywords_by_frequency_witness :
  let H : CaseMapping := asciiToLowerCase in
  let content := str "Gamma alpha, bravo; gamma ALPHA delta. Alpha!" in
  StronglySorted
    (fun k1 k2 =>
       (occurrences k2
          (List.filter (fun word => (4 <? length word)%nat)
             (split Rag.whitespace
                (replaceAll punctuation [] (toLowerCase content))))
        ≤ occurrences k1
            (List.filter (fun word => (4 <? length word)%nat)
               (split Rag.whitespace
                  (replaceAll punctuation [] (toLowerCase content)))))%nat)
    (extractKeywords content 3).
Proof.
  intros H content.
  apply (extractKeywords_by_frequency content 3).
  apply (bool_decide_unpack _). vm_compute. exact I.
Defined.

End FrequencyProperties.

Module SharedKeywords.
Import CrossReference SimilarityProperties.

Section Shared.
Context `{CaseMapping}.

(** X22.  The similarity of two contents does not depend on their order,
    and it is positive exactly when they have a keyword in common. *)
Theorem calculateSimilarity_symmetric (content1 content2 : jsstring) :
  calculateSimilarity content1 content2 = calculateSimilarity content2 content1
  ∧ ((0 < calculateSimilarity content1 content2)%Q
     ↔ ∃ keyword, keyword ∈ extractKeywords content1 10
                  ∧ keyword ∈ extractKeywords content2 10).
Proof.
  split.
  - rewrite !calculateSimilarity_ratio.
    by rewrite (comm_L (∪) (keywordSet content2)),
               (comm_L (∩) (keywordSet content2)).
  - rewrite calculateSimilarity_ratio.
    set (A := keywordSet content1). set (B := keywordSet content2).
    assert ((∃ keyword, keyword ∈ extractKeywords content1 10
                        ∧ keyword ∈ extractKeywords content2 10)
            ↔ (0 < size (A ∩ B))%nat) as ->.
    { split.
      - intros (k & H1 & H2).
        assert (k ∈ A ∩ B) as Hk
          by (apply elem_of_intersection; split;
              unfold A, B, keywordSet; by apply elem_of_list_to_set).
        destruct (decide (size (A ∩ B) = 0)%nat) as [E|?]; [|lia].
        apply size_empty_iff in E. by apply E in Hk.
      - intros Hpos. apply size_pos_elem_of in Hpos as [k Hk].
        apply elem_of_intersection in Hk as [H1 H2].
        unfold A, B, keywordSet in H1, H2.
        apply elem_of_list_to_set in H1. apply elem_of_list_to_set in H2.
        by exists k. }
    assert (size (A ∩ B) ≤ size (A ∪ B))%nat as Hle
      by (apply subseteq_size; clear; set_solver).
    destruct (Z.of_nat (size (A ∪ B)) =? 0)%Z eqn:Hu.
    + apply Z.eqb_eq in Hu. split; [intros Hlt; by apply Qlt_irrefl in Hlt|lia].
    + apply Z.eqb_neq in Hu. split.
      * intros Hlt. destruct (decide (size (A ∩ B) = 0)%nat) as [E|?]; [|lia].
        rewrite E in Hlt. exfalso. revert Hlt. unfold Qdiv.
        rewrite Qmult_0_l. apply Qlt_irrefl.
      * intros Hpos. apply Qlt_shift_div_l.
        -- change 0%Q with (inject_Z 0). rewrite <- Zlt_Qlt. lia.
        -- rewrite Qmult_0_l. change 0%Q with (inject_Z 0).
           rewrite <- Zlt_Qlt. lia.
Qed.

End Shared.

End SharedKeywords.

Module NeighbourProperties.
Import CrossReference RecommendationProperties.

Section Neighbours.
Variables (graph : gmap jsstring KnowledgeGraphNode) (start : jsstring)
          (limit : nat).

(** A connection that gives a recommendation when nothing but the start
    and ids without a node have been visited. *)
Definition fresh (c : Connection) : bool :=
  bool_decide (nodeId c ≠ start) && bool_decide (is_Some (graph !! nodeId c)).

Lemma visit_extends (st : traversal) (c : Connection) :
  ∃ more, recommendations (visit graph limit st c)
          = recommendations st ++ more.
Proof.
  unfold visit. destruct (bool_decide (nodeId c ∈ visited st)).
  - exists []. by rewrite app_nil_r.
  - cbn [recommendations]. destruct (graph !! nodeId c) as [n|].
    + destruct (bool_decide _); [exists []; by rewrite app_nil_r|by eexists].
    + exists []. by rewrite app_nil_r.
Qed.

Lemma fold_visit_extends (cs : list Connection) (st : traversal) :
  ∃ more, recommendations (fold_left (visit graph limit) cs st)
          = recommendations st ++ more.
Proof.
  revert st. induction cs as [|c cs IH]; intros st.
  - exists []. by rewrite app_nil_r.
  - simpl. destruct (IH (visit graph limit st c)) as (more & ->).
    destruct (visit_extends st c) as (more' & ->).
    exists (more' ++ more). by rewrite app_assoc.
Qed.

Lemma traverse_extends (turns : nat) (st st' : traversal) :
  traverse turns graph limit st = Some st' →
  ∃ more, recommendations st' = recommendations st ++ more.
Proof.
  revert st. induction turns as [|turns IH]; intros st Hrun.
  - simpl in Hrun. destruct (queue st); [|destruct (_ <? _)%nat; [done|]];
      injection Hrun as <-; exists []; by rewrite app_nil_r.
  - simpl in Hrun. destruct (queue st) as [|k rest].
    { injection Hrun as <-. exists []. by rewrite app_nil_r. }
    destruct (_ <? _)%nat.
    2:{ injection Hrun as <-. exists []. by rewrite app_nil_r. }
    destruct (graph !! k) as [node|].
    + apply IH in Hrun as (more & ->).
      destruct (fold_visit_extends (connections node)
                  {| recommendations := recommendations st; queue := rest;
                     visited := visited st |}) as (more' & ->).
      cbn [recommendations]. exists (more' ++ more). by rewrite app_assoc.
    + apply IH in Hrun as (more & ->). by exists more.
Qed.

(** Before the first fresh connection, nothing is recommended. *)
Lemma fold_visit_first (cs : list Connection) (c : Connection)
  (node : KnowledgeGraphNode) (st : traversal) :
  recommendations st = [] →
  start ∈ visited st →
  (∀ k, k ∈ visited st → k = start ∨ graph !! k = None) →
  List.find fresh cs = Some c →
  graph !! nodeId c = Some node →
  ∃ more, recommendations (fold_left (visit graph limit) cs st)
          = (nodeId c, node) :: more.
Proof.
  revert st.
  induction cs as [|c' cs IH]; intros st Hrec Hstart Hvis Hfind Hnode; [done|].
  cbn [List.find] in Hfind. cbn [fold_left].
  destruct (fresh c') eqn:Hfresh.
  - injection Hfind as ->. apply andb_true_iff in Hfresh as [Hne _].
    apply bool_decide_eq_true in Hne.
    destruct (fold_visit_extends cs (visit graph limit st c)) as (more & ->).
    unfold visit. rewrite bool_decide_false.
    + cbn [recommendations]. rewrite Hnode, Hrec.
      rewrite bool_decide_false by (intros Hin; by apply elem_of_nil in Hin).
      by eexists.
    + intros Hin. apply Hvis in Hin as [?|Hnone]; [done|congruence].
  - assert (nodeId c' = start ∨ graph !! nodeId c' = None) as Hstale.
    { unfold fresh in Hfresh.
      apply andb_false_iff in Hfresh as [Hs|Hs];
        apply bool_decide_eq_false in Hs.
      - left. by apply dec_stable in Hs.
      - right. destruct (graph !! nodeId c'); [|done]. exfalso. by apply Hs. }
    apply IH; try done.
    + unfold visit.
      destruct (bool_decide (nodeId c' ∈ visited st)) eqn:Hv; [done|].
      apply bool_decide_eq_false in Hv. cbn [recommendations].
      destruct Hstale as [E| ->]; [|done]. rewrite E in Hv. done.
    + unfold visit. destruct (bool_decide (nodeId c' ∈ visited st)); [done|].
      cbn [visited]. set_solver.
    + intros k Hk. unfold visit in Hk.
      destruct (bool_decide (nodeId c' ∈ visited st)) eqn:Hv;
        [by apply Hvis|].
      cbn [visited] in Hk. apply elem_of_union in Hk as [Hk|Hk];
        [by apply Hvis|].
      apply elem_of_singleton in Hk. by subst k.
Qed.

End Neighbours.

(** The first recommendation is the node of the first fresh connection
    of the start. *)
Lemma getRecommendations_first (currentArticleId : jsstring)
  (graph : gmap jsstring KnowledgeGraphNode) (limit : nat)
  (currentNode node : KnowledgeGraphNode) (c : Connection) :
  (0 < limit)%nat →
  graph !! currentArticleId = Some currentNode →
  List.find (fresh graph currentArticleId) (connections currentNode)
  = Some c →
  graph !! nodeId c = Some node →
  ∃ others,
    getRecommendations currentArticleId graph limit = Some (node :: others).
Proof.
  intros Hlimit Hstart Hfind Hnode. unfold getRecommendations.
  rewrite Hstart.
  set (st0 := {| recommendations := []; queue := [currentArticleId];
                 visited := {[currentArticleId]} |}).
  assert (sound graph currentArticleId st0) as Hst0.
  { split; simpl; [constructor|constructor| |set_solver].
    apply Forall_singleton. by left. }
  destruct (traverse_total graph currentArticleId limit
              (S (size (targets graph))) st0) as (st & Hrun & _); [|done|].
  { unfold budget. simpl.
    assert (size (targets graph ∖ {[currentArticleId]})
            ≤ size (targets graph))%nat
      by (apply subseteq_size; set_solver).
    lia. }
  rewrite Hrun. cbn [mbind option_bind].
  cbn [traverse st0 queue recommendations length] in Hrun.
  assert ((0 <? limit)%nat = true) as Hpos by by apply Nat.ltb_lt.
  rewrite Hpos, Hstart in Hrun.
  apply traverse_extends in Hrun as (more & ->).
  change (visited st0) with ({[currentArticleId]} : gset jsstring).
  destruct (fold_visit_first graph currentArticleId limit
              (connections currentNode) c node
              {| recommendations := []; queue := [];
                 visited := {[currentArticleId]} |})
    as (more' & ->); try done.
  - cbn [visited]. set_solver.
  - cbn [visited]. intros k Hk. left. set_solver.
  - destruct limit as [|limit]; [lia|]. cbn. by eexists.
Qed.

(** X16.  With a limit of one or more, when the start has a connection to
    another id that has a node, the first recommendation is the node of
    the first such connection. *)
Theorem getRecommendations_nearest_first (currentArticleId : jsstring)
  (graph : gmap jsstring KnowledgeGraphNode) (limit : nat)
  (currentNode node : KnowledgeGraphNode) (c : Connection) :
  (0 < limit)%nat →
  graph !! currentArticleId = Some currentNode →
  List.find (fresh graph currentArticleId) (connections currentNode)
  = Some c →
  graph !! nodeId c = Some node →
  ∃ others,
    getRecommendations currentArticleId graph limit = Some (node :: others).
Proof. apply getRecommendations_first. Qed.

Definition nodeA : KnowledgeGraphNode :=
  {| node_id := str "a"; node_title := str "Alpha"; node_slug := str "alpha";
     connections :=
       [{| nodeId := str "a"; type := references |};
        {| nodeId := str "gone"; type := related |};
        {| nodeId := str "b"; type := references |}] |}.

Definition nodeB : KnowledgeGraphNode :=
  {| node_id := str "b"; node_title := str "Beta"; node_slug := str "beta";
     connections := [{| nodeId := str "a"; type := related |}] |}.

Definition twoNodes : gmap jsstring KnowledgeGraphNode :=
  <[str "a" := nodeA]> (<[str "b" := nodeB]> ∅).

Lemma getRecommendations_nearest_first_witness :
  ∃ others, getRecommendations (str "a") twoNodes 3 = Some (nodeB :: others).
Proof.
  apply (getRecommendations_nearest_first (str "a") twoNodes 3 nodeA nodeB
           {| nodeId := str "b"; type := references |}).
  - lia.
  - vm_compute. reflexivity.
  - vm_compute. reflexivity.
  - vm_compute. reflexivity.
Defined.

End NeighbourProperties.

Module BuiltGraph.
Import CrossReference RecommendationProperties LinkProperties
       NeighbourProperties.

Lemma fold_visit_stale (graph : gmap jsstring KnowledgeGraphNode)
  (limit : nat) (cs : list Connection) (st : traversal) :
  Forall (fun c => nodeId c ∈ visited st) cs →
  fold_left (visit graph limit) cs st = st.
Proof.
  induction 1 as [|c cs Hc Hcs IH]; [done|]. cbn [fold_left].
  unfold visit at 2. by rewrite bool_decide_true.
Qed.

Section WithCaseMapping.
Context `{CaseMapping}.

(** X24.  In a graph built by [buildKnowledgeGraph], with a limit of one
    or more, an article has no recommendation exactly when all the
    connections of its node point to the article itself. *)
Theorem getRecommendations_of_built_graph (articles : list Article)
  (maxConnectionsPerArticle : nat) (currentArticleId : jsstring)
  (limit : nat) (currentNode : KnowledgeGraphNode) :
  (0 < limit)%nat →
  buildKnowledgeGraph articles maxConnectionsPerArticle !! currentArticleId
  = Some currentNode →
  getRecommendations currentArticleId
    (buildKnowledgeGraph articles maxConnectionsPerArticle) limit = Some []
  ↔ Forall (fun c => nodeId c = currentArticleId) (connections currentNode).
Proof.
  intros Hlimit Hstart.
  set (graph := buildKnowledgeGraph articles maxConnectionsPerArticle) in *.
  destruct (buildKnowledgeGraph_over articles maxConnectionsPerArticle)
    as [Hdom Hnodes]. fold graph in Hdom, Hnodes.
  split.
  - intros Hnone.
    destruct (List.find (fresh graph currentArticleId)
                        (connections currentNode)) as [c|] eqn:Hfind.
    + apply find_some in Hfind as Hc. destruct Hc as [_ Hfresh].
      apply andb_true_iff in Hfresh as [_ Hnode].
      apply bool_decide_eq_true in Hnode as [node Hnode].
      destruct (getRecommendations_first currentArticleId graph limit
                  currentNode node c Hlimit Hstart Hfind Hnode)
        as (others & Hrun).
      congruence.
    + apply Forall_forall. intros c Hc.
      apply list_elem_of_In in Hc.
      pose proof (find_none _ _ Hfind c Hc) as Hstale.
      apply andb_false_iff in Hstale as [Hs|Hs];
        apply bool_decide_eq_false in Hs.
      * by apply dec_stable in Hs.
      * exfalso. apply Hs. apply Hdom.
        destruct (Hnodes _ _ Hstart) as [_ Hlinked].
        rewrite Forall_forall in Hlinked.
        by apply Hlinked, list_elem_of_In.
  - intros Hself. unfold getRecommendations. rewrite Hstart.
    cbn [traverse queue recommendations length].
    assert ((0 <? limit)%nat = true) as -> by by apply Nat.ltb_lt.
    rewrite Hstart. cbn [visited].
    rewrite fold_visit_stale.
    + rewrite traverse_done by done. cbn. by destruct limit.
    + eapply Forall_impl; [exact Hself|]. intros c ->. cbn [visited].
      set_solver.
Qed.

End WithCaseMapping.

Definition alphaNode : KnowledgeGraphNode :=
  {| node_id := str "a"; node_title := str "Alpha"; node_slug := str "alpha";
     connections := [{| nodeId := str "b"; type := references |}] |}.

Lemma getRecommendations_of_built_graph_witness :
  let H : CaseMapping := asciiToLowerCase in
  getRecommendations (str "a") (buildKnowledgeGraph [alpha; beta] 10) 3
  = Some []
  ↔ Forall (fun c => nodeId c = str "a") (connections alphaNode).
Proof.
  intros H.
  apply (getRecommendations_of_built_graph [alpha; beta] 10 (str "a") 3
           alphaNode).
  - lia.
  - vm_compute. reflexivity.
Defined.

End BuiltGraph.

(** ** lib/schemas/jsonld.ts *)

Module AnswerProperties.
Import JsonLd PushFacts NumeralFacts.

(** The words counted for a list of sentences. *)
Definition wordsIn (sentences : list jsstring) : nat :=
  foldr (fun s total => (wordsOf s + total)%nat) 0%nat sentences.

(** The text that the loops build from a list of sentences: each one
    trimmed, after a space. *)
Definition spaced (sentences : list jsstring) : jsstring :=
  concat (map (fun s => str " " ++ trim s) sentences).

Lemma answerFirstFrom_prefix (sentences : list jsstring) (targetWordCount : Z)
  (summary : jsstring) (wordCount : nat) :
  ∃ n : nat,
    (n ≤ length sentences)%nat
    ∧ answerFirstFrom sentences targetWordCount summary wordCount
      = summary ++ spaced (take n sentences)
    ∧ (n = 0%nat
       ∨ (Z.of_nat (wordCount + wordsIn (take n sentences))
          ≤ targetWordCount + 10)%Z)
    ∧ ((n < length sentences)%nat →
       (targetWordCount + 10
        < Z.of_nat (wordCount + wordsIn (take (S n) sentences)))%Z).
Proof.
  revert summary wordCount.
  induction sentences as [|s l IH]; intros summary wordCount.
  - exists 0%nat. simpl. rewrite app_nil_r. repeat split; auto; lia.
  - cbn [answerFirstFrom].
    destruct (Z.of_nat (wordCount + wordsOf s) >? targetWordCount + 10)%Z
      eqn:Hfit.
    + exists 0%nat. rewrite Z.gtb_ltb in Hfit. apply Z.ltb_lt in Hfit.
      cbn [take length spaced map concat wordsIn foldr].
      rewrite app_nil_r. repeat split; auto; lia.
    + rewrite Z.gtb_ltb in Hfit. apply Z.ltb_ge in Hfit.
      destruct (IH (summary ++ str " " ++ trim s) (wordCount + wordsOf s)%nat)
        as (n & Hn & -> & Hsum & Hstop).
      exists (S n). cbn [take length].
      repeat split.
      * lia.
      * unfold spaced. cbn [map concat]. by rewrite <- !app_assoc.
      * right. cbn [wordsIn foldr]. fold (wordsIn (take n l)).
        destruct Hsum as [->|Hsum]; [simpl; lia|lia].
      * intros Hlt. assert (n < length l)%nat as Hlt' by lia.
        specialize (Hstop Hlt').
        cbn [wordsIn foldr]. fold (wordsIn (take (S n) l)). lia.
Qed.

(** X17.  The summary is made of a prefix of the sentences of the content,
    each trimmed and after a space, trimmed as a whole; the words of
    this prefix are at most ten more than the target, and the first
    sentence left out would have exceeded that. *)
Theorem generateAnswerFirstSummary_prefix (content : jsstring)
  (targetWordCount : Z) :
  ∃ n : nat,
    (n ≤ length (matchAll sentence content))%nat
    ∧ generateAnswerFirstSummary content targetWordCount
      = trim (spaced (take n (matchAll sentence content)))
    ∧ (n = 0%nat
       ∨ (Z.of_nat (wordsIn (take n (matchAll sentence content)))
          ≤ targetWordCount + 10)%Z)
    ∧ ((n < length (matchAll sentence content))%nat →
       (targetWordCount + 10
        < Z.of_nat (wordsIn (take (S n) (matchAll sentence content))))%Z).
Proof.
  unfold generateAnswerFirstSummary.
  destruct (answerFirstFrom_prefix (matchAll sentence content)
              targetWordCount [] 0) as (n & Hn & -> & Hsum & Hstop).
  by exists n.
Qed.

Section WithCaseMapping.
Context `{CaseMapping}.

(** X18.  The entities are pairwise distinct. *)
Theorem extractEntities_distinct (text : jsstring) :
  NoDup (extractEntities text)
  ∧ ∀ entity,
      entity ∈ extractEntities text
      ↔ ∃ hit, (hit ∈ matchAll properNouns text ∨ hit ∈ matchAll theNoun text)
               ∧ entity = toLowerCase hit.
Proof.
  unfold extractEntities. cbn [fold_left].
  destruct (fold_push_new toLowerCase (matchAll properNouns text) []
              NoDup_nil_2) as [Hnd1 Hmem1].
  destruct (fold_push_new toLowerCase (matchAll theNoun text) _ Hnd1)
    as [Hnd2 Hmem2].
  split; [exact Hnd2|]. intros entity. rewrite Hmem2, Hmem1. split.
  - intros [[Hnil|(hit & Hhit & ->)]|(hit & Hhit & ->)].
    + by apply elem_of_nil in Hnil.
    + exists hit. by split; [left|].
    + exists hit. by split; [right|].
  - intros (hit & [Hhit|Hhit] & ->).
    + left. right. by exists hit.
    + right. by exists hit.
Qed.

(** The slug of a heading, with which the ids of its answers start. *)
Definition slugOf (heading : jsstring) : jsstring :=
  replaceAll Rag.whitespace (str "-") (toLowerCase heading).

(** What holds of the answers pushed so far. *)
Definition numbered (heading : jsstring) (answers : list AtomicAnswer)
  : Prop :=
  ∀ i a, answers !! i = Some a →
    id a = slugOf heading ++ str "-" ++ decimal i
    ∧ JsonLd.heading a = heading
    ∧ truthy (answer a) = true
    ∧ confidence a = (95 # 100)%Q.

Lemma numbered_snoc (heading : jsstring) (st : answering) :
  numbered heading (answers st) →
  truthy (trim (currentAnswer st)) = true →
  numbered heading (answers st ++ [answerOf heading st]).
Proof.
  intros Hnum Ht i a Hi.
  apply lookup_app_Some in Hi as [Hi|[Hlen Hi]]; [by apply Hnum|].
  apply list_lookup_singleton_Some in Hi as [Hi <-].
  assert (i = length (answers st)) as -> by lia.
  by repeat split.
Qed.

Lemma answerStep_numbered (heading : jsstring) (st : answering)
  (sentence : jsstring) (seen : nat) :
  numbered heading (answers st) →
  (length (answers st) + (if truthy (currentAnswer st) then 1 else 0)
   ≤ seen)%nat →
  let st' := answerStep heading st sentence in
  numbered heading (answers st')
  ∧ (length (answers st') + (if truthy (currentAnswer st') then 1 else 0)
     ≤ S seen)%nat.
Proof.
  intros Hnum Hlen. unfold answerStep.
  destruct ((60 <? wordCount st + wordsOf sentence)%nat
            && truthy (trim (currentAnswer st))) eqn:Hflush;
    cbn [answers currentAnswer].
  - apply andb_true_iff in Hflush as [_ Ht]. split.
    + by apply numbered_snoc.
    + rewrite length_app. cbn [length app truthy].
      assert (truthy (currentAnswer st) = true) as Hcur.
      { destruct (currentAnswer st); [done|done]. }
      assert (truthy (str " " ++ trim sentence) = true) as -> by done.
      rewrite Hcur in Hlen. lia.
  - split; [done|].
    assert (truthy (currentAnswer st ++ str " " ++ trim sentence) = true)
      as -> by by destruct (currentAnswer st).
    destruct (truthy (currentAnswer st)); lia.
Qed.

Lemma extractAtomicAnswers_all_numbered (content heading : jsstring) :
  (length (extractAtomicAnswers content heading)
   ≤ length (matchAll sentence content))%nat
  ∧ numbered heading (extractAtomicAnswers content heading).
Proof.
  unfold extractAtomicAnswers.
  assert (∀ sentences st seen,
            numbered heading (answers st) →
            (length (answers st)
             + (if truthy (currentAnswer st) then 1 else 0) ≤ seen)%nat →
            let st' := fold_left (answerStep heading) sentences st in
            numbered heading (answers st')
            ∧ (length (answers st')
               + (if truthy (currentAnswer st') then 1 else 0)
               ≤ seen + length sentences)%nat) as Hfold.
  { induction sentences as [|s l IH]; intros st seen Hnum Hlen.
    - simpl. split; [done|lia].
    - cbn [fold_left length].
      destruct (answerStep_numbered heading st s seen Hnum Hlen) as [Hn Hl].
      destruct (IH _ (S seen) Hn Hl) as [Hn' Hl']. split; [done|lia]. }
  destruct (Hfold (matchAll sentence content)
              {| answers := []; currentAnswer := []; wordCount := 0 |} 0%nat)
    as [Hnum Hlen].
  { intros i a Hi. cbn [answers] in Hi. by rewrite lookup_nil in Hi. }
  { simpl. lia. }
  set (st := fold_left _ _ _) in *. cbn [Nat.add] in Hlen.
  destruct (truthy (trim (currentAnswer st))) eqn:Ht; cbn [andb].
  - destruct ((40 <=? wordCount st)%nat && (wordCount st <=? 60)%nat).
    + split; [|by apply numbered_snoc].
      rewrite length_app. cbn [length].
      assert (truthy (currentAnswer st) = true) as Hcur
        by by destruct (currentAnswer st).
      rewrite Hcur in Hlen. lia.
    + split; [|done]. lia.
  - split; [|done]. lia.
Qed.

(** X19.  The answers are numbered from 0 in their ids, after the slug of
    the heading; each carries the heading and a text that is not empty,
    and there are at most as many answers as sentences. *)
Theorem extractAtomicAnswers_numbered (content heading : jsstring) :
  let result := extractAtomicAnswers content heading in
  (length result ≤ length (matchAll sentence content))%nat
  ∧ ∀ i a, result !! i = Some a →
      id a = slugOf heading ++ str "-" ++ decimal i
      ∧ JsonLd.heading a = heading
      ∧ truthy (answer a) = true
      ∧ confidence a = (95 # 100)%Q.
Proof. apply extractAtomicAnswers_all_numbered. Qed.

(** X21.  The ids of the answers of a heading are pairwise distinct. *)
Theorem extractAtomicAnswers_ids_distinct (content heading : jsstring) :
  NoDup (map id (extractAtomicAnswers content heading)).
Proof.
  destruct (extractAtomicAnswers_all_numbered content heading) as [_ Hnum].
  apply NoDup_alt. intros i j x Hi Hj.
  rewrite list_lookup_fmap in Hi, Hj.
  destruct (extractAtomicAnswers content heading !! i) as [a|] eqn:Ha;
    [|done].
  destruct (extractAtomicAnswers content heading !! j) as [b|] eqn:Hb;
    [|done].
  injection Hi as Hi. injection Hj as Hj.
  destruct (Hnum i a Ha) as [Ea _]. destruct (Hnum j b Hb) as [Eb _].
  rewrite Ea in Hi. rewrite Eb, <- Hi in Hj.
  apply app_inv_head in Hj. apply app_inv_head in Hj.
  symmetry. by apply decimal_inj.
Qed.

End WithCaseMapping.

End AnswerProperties.

(** ** Empty inputs *)

Module EdgeCases.

#[local] Instance asciiCaseMapping : CaseMapping := asciiToLowerCase.

(** On the empty string, the empty corpus and the empty graph the
    functions return empty collections and zero scores. *)
Example empty_inputs :
  Rag.chunkContent [] 1024 128 [] [] = []
  ∧ Rag.calculateSimilarityScore [] [] = Returns 0%Q
  ∧ Rag.rankChunksForQuery [] (str "query") 5 = Returns []
  ∧ CrossReference.extractKeywords [] 10 = []
  ∧ CrossReference.calculateSimilarity [] [] = 0%Q
  ∧ CrossReference.extractInternalReferences [] = []
  ∧ CrossReference.buildKnowledgeGraph [] 10 = ∅
  ∧ CrossReference.getRecommendations (str "a") ∅ 5 = Some []
  ∧ JsonLd.extractAtomicAnswers [] (str "Heading") = [].
Proof. repeat split; try reflexivity; vm_compute; reflexivity. Qed.

End EdgeCases.

(** ** The three places where the code leaves the specification *)

Module Divergences.

#[local] Instance asciiCase : CaseMapping := asciiToLowerCase.

(** C1.  [extractAtomicAnswers] cuts an answer when the next sentence
    would make it longer than 60 words, whatever its length then: a
    sentence of one word before a sentence of 60 words gives an answer of
    one word, outside the band of 40 to 60 words that the code documents. *)
Theorem extractAtomicAnswers_emits_short_answer :
  map (fun a => JsonLd.wordsOf (JsonLd.answer a))
      (JsonLd.extractAtomicAnswers
         (str ("Hi. a a a a a a a a a a a a a a a a a a a a "
               ++ "a a a a a a a a a a a a a a a a a a a a "
               ++ "a a a a a a a a a a a a a a a a a a a a.")%string)
         (str "Greeting"))
  = [1; 60]%nat.
Proof. vm_compute. reflexivity. Qed.

(** C2.  [calculateSimilarityScore] puts each term of the query, as it is,
    in the source of a regular expression: for the query of one opening
    parenthesis and a content that contains one, the constructor of the
    expression throws, and so does the scorer. *)
Theorem calculateSimilarityScore_throws :
  Rag.calculateSimilarityScore (str "(") (str "f(x)") = Throws SyntaxError.
Proof. vm_compute. reflexivity. Qed.

(** C4.  [buildKnowledgeGraph] resolves a reference marker to the article
    of this title without comparing it with the article that holds the
    marker: an article that names itself gets a connection to itself. *)
Theorem buildKnowledgeGraph_self_edge :
  CrossReference.connections
    <$> (CrossReference.buildKnowledgeGraph
           [{| CrossReference.id := str "a";
               CrossReference.title := str "Alpha";
               CrossReference.slug := str "alpha";
               CrossReference.description := None;
               CrossReference.content := str "See [[alpha]]." |}] 10
         !! str "a")
  = Some [{| CrossReference.nodeId := str "a";
             CrossReference.type := CrossReference.references |}].
Proof. vm_compute. reflexivity. Qed.

End Divergences.
